(** * r_wordcloud: the placement engine of [r_wordcloud.py]

    A shallow embedding of the layout part of [wordcloud] and of its helpers
    ([_has_tails], [_get_palette_colors], [_hex_to_rgb], [_measure_text],
    [_is_overlap]), followed by the properties of the layout.

    Conventions of the embedding.
    - Python [int] is [Z]; Python [float] is an exact rational ([Q]): the
      rounding of floating-point operations is not modelled.  [math.pi] and
      [math.sqrt(0.5)] are the rationals that the two doubles denote.
    - Exceptions are values ([Raise]); the [while True] loop of the spiral
      search runs on fuel, and [OutOfFuel] stands for a loop that is still
      running when the fuel is spent.
    - The random generator is explicit state; the generator, [math.cos],
      [math.sin], [int(s, 16)] and PIL's [textbbox] are fields of [Env].
    - Rendering (PIL) is outside the embedding: [wordcloud] returns the lists
      [boxes] and [placed] that the rendering loop consumes. *)

From Stdlib Require Import ZArith QArith Qround Lqa Lia List Bool Ascii String.
From Stdlib Require Import Permutation Sorted.
From stdpp Require Import gmap strings.
Import ListNotations.

Open Scope Z_scope.

(** ** Numbers *)

(** [x < y] on floats. *)
Definition Qltb (x y : Q) : bool := negb (Qle_bool y x).

(** [int(x)]: truncation toward zero. *)
Definition py_int (q : Q) : Z := Z.quot (Qnum q) (Zpos (Qden q)).

(** [math.ceil(x)]. *)
Definition math_ceil (q : Q) : Z := Qceiling q.

(** The double [math.pi]. *)
Definition math_pi : Q := 884279719003555 # 281474976710656.

(** The double [math.sqrt(0.5)]. *)
Definition sqrt_half : Q := 6369051672525773 # 9007199254740992.

(** ** Exceptions and the state-and-error monad *)

Inductive exn : Set := ZeroDivisionError | IndexError | ValueError.

Inductive outcome (A : Type) : Type :=
| Ok (a : A)
| Raise (e : exn)
| OutOfFuel.

Arguments Ok {A} a.
Arguments Raise {A} e.
Arguments OutOfFuel {A}.

Definition M (S A : Type) : Type := S -> outcome (A * S).

Definition ret {S A} (a : A) : M S A := fun s => Ok (a, s).

Definition bind {S A B} (m : M S A) (k : A -> M S B) : M S B :=
  fun s => match m s with
           | Ok (a, s') => k a s'
           | Raise e => Raise e
           | OutOfFuel => OutOfFuel
           end.

Definition raise {S A} (e : exn) : M S A := fun _ => Raise e.

Definition out_of_fuel {S A} : M S A := fun _ => OutOfFuel.

Declare Scope monad_scope.
Delimit Scope monad_scope with monad.
Notation "x <- m ;; k" := (bind m (fun x => k))
  (at level 63, m at next level, right associativity) : monad_scope.
Open Scope monad_scope.

(** [[f(x) for x in l]] where [f] may raise. *)
Fixpoint mapM {S A B} (f : A -> M S B) (l : list A) : M S (list B) :=
  match l with
  | [] => ret []
  | x :: l' => y <- f x ;; ys <- mapM f l' ;; ret (y :: ys)
  end.

(** [for x in l: st = body(st, x)]. *)
Fixpoint foldM {S A St} (body : St -> A -> M S St) (l : list A) (st : St) : M S St :=
  match l with
  | [] => ret st
  | x :: l' => st' <- body st x ;; foldM body l' st'
  end.

(** [x / y] (true division). *)
Definition truediv {S} (x y : Q) : M S Q :=
  if Qeq_bool y 0 then raise ZeroDivisionError else ret (x / y)%Q.

(** ** Lists as Python has them *)

(** [l[i]], negative indices counting from the end. *)
Definition py_index {A} (l : list A) (i : Z) : option A :=
  let n := Z.of_nat (length l) in
  if (0 <=? i) && (i <? n) then nth_error l (Z.to_nat i)
  else if (i <? 0) && (- n <=? i) then nth_error l (Z.to_nat (n + i))
  else None.

Definition getitem {S A} (l : list A) (i : Z) : M S A :=
  match py_index l i with
  | Some a => ret a
  | None => raise IndexError
  end.

(** [l[:k]]. *)
Definition slice_to {A} (l : list A) (k : Z) : list A :=
  if 0 <=? k then firstn (Z.to_nat k) l
  else firstn (Z.to_nat (Z.of_nat (length l) + k)) l.

(** [l[k:]]. *)
Definition slice_from {A} (l : list A) (k : Z) : list A :=
  if 0 <=? k then skipn (Z.to_nat k) l
  else skipn (Z.to_nat (Z.of_nat (length l) + k)) l.

(** [max(l)]: the first of the largest elements; [ValueError] on []. *)
Definition py_max {S} (l : list Q) : M S Q :=
  match l with
  | [] => raise ValueError
  | x :: l' => ret (fold_left (fun m y => if Qltb m y then y else m) l' x)
  end.

(** [l.sort(key=lambda x: x[1], reverse=True)]: the sort is stable, so an
    entry goes in front of the first entry whose key is not larger. *)
Fixpoint insert_desc (x : string * Q) (l : list (string * Q)) : list (string * Q) :=
  match l with
  | [] => [x]
  | y :: l' => if Qle_bool (snd y) (snd x) then x :: l else y :: insert_desc x l'
  end.

Definition sort_desc (l : list (string * Q)) : list (string * Q) :=
  fold_right insert_desc [] l.

(** ** Palettes *)

Definition BREWER_PALETTES : gmap string (list string) :=
  list_to_map
    [ ("Dark2", ["#1B9E77"; "#D95F02"; "#7570B3"; "#E7298A"; "#66A61E"; "#E6AB02"; "#A6761D"; "#666666"]);
      ("Set1", ["#E41A1C"; "#377EB8"; "#4DAF4A"; "#984EA3"; "#FF7F00"; "#FFFF33"; "#A65628"; "#F781BF"]);
      ("Set2", ["#66C2A5"; "#FC8D62"; "#8DA0CB"; "#E78AC3"; "#A6D854"; "#FFD92F"; "#E5C494"; "#B3B3B3"]);
      ("Set3", ["#8DD3C7"; "#FFFFB3"; "#BEBADA"; "#FB8072"; "#80B1D3"; "#FDB462"; "#B3DE69"; "#FCCDE5"]);
      ("Accent", ["#7FC97F"; "#BEAED4"; "#FDC086"; "#FFFF99"; "#386CB0"; "#F0027F"; "#BF5B17"; "#666666"]);
      ("Paired", ["#A6CEE3"; "#1F78B4"; "#B2DF8A"; "#33A02C"; "#FB9A99"; "#E31A1C"; "#FDBF6F"; "#FF7F00"]);
      ("Pastel1", ["#FBB4AE"; "#B3CDE3"; "#CCEBC5"; "#DECBE4"; "#FED9A6"; "#FFFFCC"; "#E5D8BD"; "#FDDAEC"]);
      ("Pastel2", ["#B3E2CD"; "#FDCDAC"; "#CBD5E8"; "#F4CAE4"; "#E6F5C9"; "#FFF2AE"; "#F1E2CC"; "#CCCCCC"]);
      ("Blues", ["#F7FBFF"; "#DEEBF7"; "#C6DBEF"; "#9ECAE1"; "#6BAED6"; "#4292C6"; "#2171B5"; "#084594"]);
      ("Greens", ["#F7FCF5"; "#E5F5E0"; "#C7E9C0"; "#A1D99B"; "#74C476"; "#41AB5D"; "#238B45"; "#005A32"]);
      ("Oranges", ["#FFF5EB"; "#FEE6CE"; "#FDD0A2"; "#FDAE6B"; "#FD8D3C"; "#F16913"; "#D94801"; "#8C2D04"]);
      ("Reds", ["#FFF5F0"; "#FEE0D2"; "#FCBBA1"; "#FC9272"; "#FB6A4A"; "#EF3B2C"; "#CB181D"; "#99000D"]);
      ("Purples", ["#FCFBFD"; "#EFEDF5"; "#DADAEB"; "#BCBDDC"; "#9E9AC8"; "#807DBA"; "#6A51A3"; "#4A1486"]);
      ("Greys", ["#FFFFFF"; "#F0F0F0"; "#D9D9D9"; "#BDBDBD"; "#969696"; "#737373"; "#525252"; "#252525"]);
      ("BuGn", ["#F7FCFD"; "#E5F5F9"; "#CCECE6"; "#99D8C9"; "#66C2A4"; "#41AE76"; "#238B45"; "#005824"]);
      ("BuPu", ["#F7FCFD"; "#E0ECF4"; "#BFD3E6"; "#9EBCDA"; "#8C96C6"; "#8C6BB1"; "#88419D"; "#6E016B"]);
      ("YlOrRd", ["#FFFFCC"; "#FFEDA0"; "#FED976"; "#FEB24C"; "#FD8D3C"; "#FC4E2A"; "#E31A1C"; "#B10026"]);
      ("YlGnBu", ["#FFFFD9"; "#EDF8B1"; "#C7E9B4"; "#7FCDBB"; "#41B6C4"; "#1D91C0"; "#225EA8"; "#0C2C84"]);
      ("RdYlGn", ["#D73027"; "#F46D43"; "#FDAE61"; "#FEE08B"; "#D9EF8B"; "#A6D96A"; "#66BD63"; "#1A9850"]);
      ("RdBu", ["#B2182B"; "#D6604D"; "#F4A582"; "#FDDBC7"; "#D1E5F0"; "#92C5DE"; "#4393C3"; "#2166AC"]);
      ("Spectral", ["#D53E4F"; "#F46D43"; "#FDAE61"; "#FEE08B"; "#E6F598"; "#ABDDA4"; "#66C2A5"; "#3288BD"]) ].

(** The local set [sequential] of [_get_palette_colors]. *)
Definition sequential : gset string :=
  list_to_set ["Blues"; "Greens"; "Oranges"; "Reds"; "Purples"; "Greys";
               "BuGn"; "BuPu"; "YlOrRd"; "YlGnBu"].

(** The [palette] argument: [Union[str, list]]. *)
Inductive palette_arg : Type :=
| PaletteName (name : string)
| PaletteList (colors : list string).

Definition fallback_colors : list string :=
  ["#1B9E77"; "#D95F02"; "#7570B3"; "#E7298A"; "#66A61E"; "#E6AB02"].

Definition _get_palette_colors (palette : palette_arg) (skip_light : Z) : list string :=
  match palette with
  | PaletteList colors => colors
  | PaletteName name =>
      match BREWER_PALETTES !! name with
      | Some colors =>
          if bool_decide (name ∈ sequential) && (0 <? skip_light)
          then slice_from colors skip_light
          else colors
      | None => fallback_colors
      end
  end.

(** ** Descenders *)

Definition TAILS : gset ascii := list_to_set (list_ascii_of_string "gjpqy").

(** [str.lower] on one character of a byte string: the ASCII capitals move
    by 32, every other byte stays (no character outside ASCII lowers to one
    of the letters of [TAILS]). *)
Definition ascii_lower (c : ascii) : ascii :=
  let n := nat_of_ascii c in
  if ((65 <=? n) && (n <=? 90))%nat then ascii_of_nat (n + 32) else c.

Definition lower (s : string) : list ascii := map ascii_lower (list_ascii_of_string s).

Definition _has_tails (word : string) : bool :=
  existsb (fun c => bool_decide (c ∈ TAILS)) (lower word).

(** Lines 229-231: the height after the descender compensation;
    [0.2] is taken as one fifth. *)
Definition tails_height (word : string) (th_px : Z) : Z :=
  if _has_tails word then py_int (inject_Z th_px + inject_Z th_px * (1 # 5)) else th_px.

(** ** Overlap test *)

(** A box [(x, y, w, h)]. *)
Definition box : Type := Q * Q * Q * Q.

Fixpoint _is_overlap (x1 y1 w1 h1 : Q) (boxes : list box) : bool :=
  match boxes with
  | [] => false
  | (x2, y2, w2, h2) :: rest =>
      let ov_x := if Qltb x1 x2 then Qltb x2 (x1 + w1) else Qltb x1 (x2 + w2) in
      let ov := if Qltb y1 y2 then ov_x && Qltb y2 (y1 + h1)
                else ov_x && Qltb y1 (y2 + h2) in
      if ov then true else _is_overlap x1 y1 w1 h1 rest
  end.

(** ** The environment of the layout *)

(** What [ImageFont.truetype] is asked for. *)
Record font : Type := Font { font_file : option string; font_size : Z }.

Record Env : Type := {
  rng : Type;                                  (* state of [random] *)
  rand_seed : Z -> rng;                        (* [random.seed(seed)] *)
  rand_random : rng -> Q * rng;                (* [random.random()] *)
  rand_below : Z -> rng -> Z * rng;            (* [random._randbelow(n)] *)
  rand_shuffle : list (string * Q) -> rng -> list (string * Q) * rng;
                                               (* [random.shuffle(x)] *)
  cos : Q -> Q;                                (* [math.cos] *)
  sin : Q -> Q;                                (* [math.sin] *)
  int16 : string -> option Z;                  (* [int(s, 16)], [None]: ValueError *)
  textbbox : string -> font -> Z * Z * Z * Z;  (* [draw.textbbox((0, 0), word, font)] *)
}.

(** The keyword arguments of [wordcloud]. *)
Record config : Type := {
  width : Z;
  height : Z;
  scale : Q * Q;
  min_freq : Q;
  max_words : Z;
  random_order : bool;
  random_color : bool;
  rot_per : Q;
  palette : palette_arg;
  background_color : string;
  font_path : option string;
  base_font_size : Z;
  theta_step : Q;
  r_step : Q;
  margin : Z;
  seed : option Z;
}.

Definition rgb : Type := Z * Z * Z.

(** An entry of [placed]: [(word, px, py, font, rot_word, cc)]. *)
Record placement : Type := Placement {
  p_word : string;
  p_px : Z;
  p_py : Z;
  p_font : font;
  p_rotated : bool;
  p_color : rgb;
}.

(** The two lists the placement loop grows. *)
Definition layout : Type := list box * list placement.

Section Layout.

Variable E : Env.

Abbreviation Cmd := (M (rng E)).

(** *** The [random] module *)

Definition random : Cmd Q := fun g => Ok (rand_random E g).

(** [random.uniform(a, b)] is [a + (b - a) * random()]. *)
Definition uniform (a b : Q) : Cmd Q :=
  u <- random ;; ret (a + (b - a) * u)%Q.

(** [random.randint(a, b)]: [ValueError] on an empty range. *)
Definition randint (a b : Z) : Cmd Z :=
  if 0 <? b + 1 - a
  then fun g => let '(k, g') := rand_below E (b + 1 - a) g in Ok (a + k, g')
  else raise ValueError.

Definition shuffle (x : list (string * Q)) : Cmd (list (string * Q)) :=
  fun g => Ok (rand_shuffle E x g).

Definition set_seed (s : option Z) : Cmd unit :=
  match s with
  | Some n => fun _ => Ok (tt, rand_seed E n)
  | None => ret tt
  end.

(** *** Colours and text *)

(** [hex_color.lstrip("#")]. *)
Fixpoint lstrip_hash (s : string) : string :=
  match s with
  | String c s' => if Ascii.eqb c "#" then lstrip_hash s' else s
  | EmptyString => s
  end.

Definition parse16 (s : string) : Cmd Z :=
  match int16 E s with
  | Some n => ret n
  | None => raise ValueError
  end.

Definition _hex_to_rgb (hex_color : string) : Cmd rgb :=
  let h := lstrip_hash hex_color in
  r <- parse16 (substring 0 2 h) ;;
  g <- parse16 (substring 2 2 h) ;;
  b <- parse16 (substring 4 2 h) ;;
  ret (r, g, b).

Definition _measure_text (word : string) (ft : font) : Z * Z :=
  let '(b0, b1, b2, b3) := textbbox E word ft in
  (b2 - b0, b3 - b1).

(** [get_font(cex)]: the size is at least 1. *)
Definition get_font (c : config) (cex : Q) : font :=
  Font (font_path c) (Z.max 1 (py_int (inject_Z (base_font_size c) * cex))).

(** *** Filtering, ranking, sizes *)

(** Lines 175-177. *)
Definition select_words (c : config) (frequencies : list (string * Q)) : list (string * Q) :=
  let words_freqs := List.filter (fun wf => Qle_bool (min_freq c) (snd wf)) frequencies in
  let words_freqs := sort_desc words_freqs in
  slice_to words_freqs (max_words c).

(** Lines 184-186: the order in which placement is attempted. *)
Definition placement_order (c : config) (words_freqs : list (string * Q)) : Cmd (list (string * Q)) :=
  if random_order c then shuffle words_freqs else ret words_freqs.

(** Line 195. *)
Definition cex_value (c : config) (nf : Q) : Q :=
  ((fst (scale c) - snd (scale c)) * nf + snd (scale c))%Q.

(** Lines 190-191. *)
Definition normalize (freqs : list Q) : Cmd (list Q) :=
  max_freq <- py_max freqs ;;
  mapM (fun f => truediv f max_freq) freqs.

(** *** Colour of a placed word (lines 260-266) *)

Definition choose_color (c : config) (rgb_colors : list rgb) (nc : Z) (nf : Q) : Cmd rgb :=
  if random_color c then
    k <- randint 0 (nc - 1) ;;
    getitem rgb_colors k
  else
    let ci := Z.min (math_ceil (inject_Z nc * nf)) nc - 1 in
    let ci := Z.max 0 ci in
    getitem rgb_colors (nc - 1 - ci).

(** *** The spiral search (lines 247-283) *)

Definition in_bounds (bx by_ wid ht : Q) : bool :=
  Qltb 0 bx && Qltb 0 by_ && Qltb (bx + wid) 1 && Qltb (by_ + ht) 1.

(** The radial step of one iteration. *)
Definition r_incr (c : config) : Q := (r_step c * theta_step c / (2 * math_pi))%Q.

(** Lines 259-275: the candidate is accepted; its colour is chosen, and
    the placement and the box are recorded. *)
Definition record_placement (c : config) (rgb_colors : list rgb) (nc : Z)
    (word : string) (ft : font) (nf : Q) (rot_word : bool) (st : layout)
    (x1 y1 bx by_ wid ht : Q) : Cmd layout :=
  cc <- choose_color c rgb_colors nc nf ;;
  let px := py_int (x1 * inject_Z (width c)) in
  let py := py_int (y1 * inject_Z (height c)) in
  ret (fst st ++ [(bx, by_, wid, ht)],
       snd st ++ [Placement word px py ft rot_word cc]).

Fixpoint spiral (fuel : nat) (c : config) (rgb_colors : list rgb) (nc : Z)
    (word : string) (ft : font) (nf wid ht : Q) (rot_word : bool)
    (st : layout) (r theta : Q) : Cmd layout :=
  match fuel with
  | O => out_of_fuel
  | S fuel' =>
      let x1 := ((1 # 2) + r * cos E theta)%Q in
      let y1 := ((1 # 2) + r * sin E theta)%Q in
      let bx := (x1 - (1 # 2) * wid)%Q in
      let by_ := (y1 - (1 # 2) * ht)%Q in
      if in_bounds bx by_ wid ht && negb (_is_overlap bx by_ wid ht (fst st)) then
        record_placement c rgb_colors nc word ft nf rot_word st x1 y1 bx by_ wid ht
      else if Qltb sqrt_half r then
        ret st
      else
        spiral fuel' c rgb_colors nc word ft nf wid ht rot_word st
               (r + r_incr c)%Q (theta + theta_step c)%Q
  end.

(** The size of the box of a word in pixels: the measure, the margin and
    the descender compensation (lines 225-231). *)
Definition box_px (c : config) (word : string) (ft : font) : Z * Z :=
  let '(tw_px, th_px) := _measure_text word ft in
  let tw_px := tw_px + margin c * 2 in
  let th_px := th_px + margin c * 2 in
  (tw_px, tails_height word th_px).

(** The size of the box in canvas units (lines 234-235). *)
Definition box_size (c : config) (word : string) (ft : font) : Cmd (Q * Q) :=
  let '(tw_px, th_px) := box_px c word ft in
  wid <- truediv (inject_Z tw_px) (inject_Z (width c)) ;;
  ht <- truediv (inject_Z th_px) (inject_Z (height c)) ;;
  ret (wid, ht).

(** One round of the loop over the words (lines 220-283); the entry is
    [(word, (normed_freq[i], cex_values[i]))]. *)
Definition place_word (fuel : nat) (c : config) (rgb_colors : list rgb) (nc : Z)
    (st : layout) (entry : string * (Q * Q)) : Cmd layout :=
  let '(word, (nf, cex)) := entry in
  let ft := get_font c cex in
  sz <- box_size c word ft ;;
  u <- random ;;
  let rot_word := Qltb u (rot_per c) in
  let '(wid, ht) := if rot_word then (snd sz, fst sz) else sz in
  theta <- uniform 0 (2 * math_pi) ;;
  spiral fuel c rgb_colors nc word ft nf wid ht rot_word st 0 theta.

(** [wordcloud], up to rendering; [fuel] bounds the iterations of each
    spiral search. *)
Definition wordcloud (fuel : nat) (frequencies : list (string * Q)) (c : config) : Cmd layout :=
  _ <- set_seed (seed c) ;;
  let colors := _get_palette_colors (palette c) 2 in
  let nc := Z.of_nat (length colors) in
  rgb_colors <- mapM _hex_to_rgb colors ;;
  let words_freqs := select_words c frequencies in
  match words_freqs with
  | [] => ret ([], [])
  | _ :: _ =>
      words_freqs <- placement_order c words_freqs ;;
      let words := map fst words_freqs in
      let freqs := map snd words_freqs in
      normed_freq <- normalize freqs ;;
      let cex_values := map (cex_value c) normed_freq in
      foldM (place_word fuel c rgb_colors nc)
            (combine words (combine normed_freq cex_values)) ([], [])
  end.

End Layout.

Arguments random {E}.
Arguments wordcloud E fuel frequencies c : rename.

(** ** The spec's wording of the overlap test and of the colour bucket *)

(** Spec 4.4, one axis: if [a1 < a2] then overlap requires [a1 + l1 > a2],
    else it requires [a2 + l2 > a1]. *)
Definition axis_overlap (a1 l1 a2 l2 : Q) : Prop :=
  ((a1 < a2 -> a2 < a1 + l1) /\ (~ a1 < a2 -> a1 < a2 + l2))%Q.

(** Spec 4.4: two rectangles overlap iff their projections overlap on both
    axes. *)
Definition rect_overlap (b1 b2 : box) : Prop :=
  let '(x1, y1, w1, h1) := b1 in
  let '(x2, y2, w2, h2) := b2 in
  axis_overlap x1 w1 x2 w2 /\ axis_overlap y1 h1 y2 h2.

(** Spec 3: a box strictly inside the unit square. *)
Definition inside_unit_square (b : box) : Prop :=
  let '(bx, by_, w, h) := b in
  (0 < bx /\ 0 < by_ /\ bx + w < 1 /\ by_ + h < 1)%Q.

Definition clamp (x lo hi : Z) : Z := Z.max lo (Z.min x hi).

(** Spec 4.5: [ci = clamp(ceil(N * normalizedFrequency), 1, N) - 1]. *)
Definition bucket_index (N : Z) (nf : Q) : Z :=
  clamp (Qceiling (inject_Z N * nf)) 1 N - 1.

(** Descending order of the frequencies. *)
Definition desc (a b : string * Q) : Prop := (snd b <= snd a)%Q.

(** The entries of a list whose frequency is [q], in their order. *)
Definition with_freq (q : Q) (l : list (string * Q)) : list (string * Q) :=
  List.filter (fun e => Qeq_bool (snd e) q) l.

(** A box of positive width and height. *)
Definition positive_size (b : box) : Prop :=
  let '(_, _, w, h) := b in (0 < w /\ 0 < h)%Q.

(** Every box is clear of the boxes recorded before it, under the test the
    search runs: the later box is the candidate. *)
Definition clear_of_earlier (boxes : list box) : Prop :=
  forall (i j : nat) (bi bj : box),
    (i < j)%nat -> nth_error boxes i = Some bi -> nth_error boxes j = Some bj ->
    ~ rect_overlap bj bi.

(** What the placement loop maintains on [boxes]. *)
Definition layout_ok (st : layout) : Prop :=
  Forall inside_unit_square (fst st) /\ clear_of_earlier (fst st).

(** A command that stops on every state: it returns or raises. *)
Definition halts {S A} (m : M S A) : Prop := forall s, m s <> OutOfFuel.

(** The ten characters whose lowercase is in [TAILS]. *)
Definition tail_letters : list ascii :=
  list_ascii_of_string "gjpqyGJPQY".

(** The number of iterations after which every spiral search has stopped. *)
Definition spiral_bound (c : config) : nat :=
  Z.to_nat (Qceiling (sqrt_half / r_incr c)) + 2.

(** ** A concrete environment, for running the layout *)

Module Sample.

Definition hex_digit (c : ascii) : option Z :=
  let n := Z.of_nat (nat_of_ascii c) in
  if (48 <=? n) && (n <=? 57) then Some (n - 48)
  else if (65 <=? n) && (n <=? 70) then Some (n - 55)
  else if (97 <=? n) && (n <=? 102) then Some (n - 87)
  else None.

(** [int(s, 16)] on strings of hexadecimal digits. *)
Fixpoint hex_value (acc : Z) (s : string) : option Z :=
  match s with
  | EmptyString => Some acc
  | String c s' =>
      match hex_digit c with
      | Some d => hex_value (16 * acc + d) s'
      | None => None
      end
  end.

Definition hex_int (s : string) : option Z :=
  match s with
  | EmptyString => None
  | _ => hex_value 0 s
  end.

(** A linear congruential generator. *)
Definition next (g : Z) : Z := (1103515245 * g + 12345) mod 2147483648.

Definition lcg_random (g : Z) : Q * Z := (Qmake (next g mod 1000) 1000, next g).

Definition lcg_below (n : Z) (g : Z) : Z * Z := (next g mod n, next g).

Definition lcg_shuffle (x : list (string * Q)) (g : Z) : list (string * Q) * Z :=
  (rev x, next g).

(** Rational points of the unit circle: the cosine and the sine of the
    angle [2 * atan (x / 2)]. *)
Definition cos_circle (x : Q) : Q :=
  ((1 - (x / 2) * (x / 2)) / (1 + (x / 2) * (x / 2)))%Q.
Definition sin_circle (x : Q) : Q :=
  (2 * (x / 2) / (1 + (x / 2) * (x / 2)))%Q.

(** Square glyphs of side [font_size]. *)
Definition square_bbox (word : string) (ft : font) : Z * Z * Z * Z :=
  (0, 0, font_size ft * Z.of_nat (String.length word), font_size ft).

Definition env : Env :=
  {| rng := Z; rand_seed := fun s => s; rand_random := lcg_random;
     rand_below := lcg_below; rand_shuffle := lcg_shuffle;
     cos := cos_circle; sin := sin_circle; int16 := hex_int;
     textbbox := square_bbox |}.

(** The default keyword arguments of [wordcloud]. *)
Definition defaults : config :=
  {| width := 800; height := 800; scale := (4 # 1, 1 # 2)%Q; min_freq := 1 # 1;
     max_words := 200; random_order := false; random_color := false;
     rot_per := 1 # 10; palette := PaletteName "Dark2";
     background_color := "#FFFFFF"; font_path := None; base_font_size := 16;
     theta_step := 1 # 10; r_step := 1 # 20; margin := 2; seed := None |}.

(** The three words of the scenario of the spec, on a canvas of 400 by
    400 with coarse spiral steps. *)
Definition scenario_words : list (string * Q) :=
  [("a", 10 # 1); ("b", 10 # 1); ("bb", 1 # 1)]%Q.

(** A canvas of 10 by 10 pixels, too small for any word. *)
Definition tiny_canvas : config :=
  {| width := 10; height := 10; scale := (4 # 1, 1 # 2)%Q; min_freq := 1 # 1;
     max_words := 200; random_order := false; random_color := false;
     rot_per := 1 # 10; palette := PaletteName "Dark2";
     background_color := "#FFFFFF"; font_path := None; base_font_size := 16;
     theta_step := 1 # 1; r_step := 1 # 1; margin := 2; seed := None |}.

(** The defaults with [scale = (0, 0)]: a maximum scale that is not
    positive. *)
Definition zero_scale : config :=
  {| width := 800; height := 800; scale := (0 # 1, 0 # 1)%Q; min_freq := 1 # 1;
     max_words := 200; random_order := false; random_color := false;
     rot_per := 1 # 10; palette := PaletteName "Dark2";
     background_color := "#FFFFFF"; font_path := None; base_font_size := 16;
     theta_step := 1 # 10; r_step := 1 # 20; margin := 2; seed := None |}.

(** The defaults with [min_freq = 0]. *)
Definition zero_min_freq : config :=
  {| width := 800; height := 800; scale := (4 # 1, 1 # 2)%Q; min_freq := 0 # 1;
     max_words := 200; random_order := false; random_color := false;
     rot_per := 1 # 10; palette := PaletteName "Dark2";
     background_color := "#FFFFFF"; font_path := None; base_font_size := 16;
     theta_step := 1 # 10; r_step := 1 # 20; margin := 2; seed := None |}.

Definition scenario : config :=
  {| width := 400; height := 400; scale := (2 # 1, 1 # 1)%Q; min_freq := 1 # 1;
     max_words := 10; random_order := false; random_color := false;
     rot_per := 1 # 10; palette := PaletteName "Dark2";
     background_color := "#FFFFFF"; font_path := None; base_font_size := 16;
     theta_step := 1 # 1; r_step := 1 # 1; margin := 2; seed := Some 42 |}.

End Sample.

(** ** Word counts from a text ([wordcloud_from_text]) *)

(** A character that [[a-zA-Z]] matches. *)
Definition is_alpha (c : ascii) : bool :=
  let n := nat_of_ascii c in
  (((65 <=? n) && (n <=? 90)) || ((97 <=? n) && (n <=? 122)))%nat.

(** [re.findall(r'[a-zA-Z]+', s)]: the maximal runs of letters, from left to
    right; [run] is the run being read, its last letter first. *)
Fixpoint findall_alpha (run : list ascii) (s : list ascii) : list string :=
  match s with
  | [] =>
      match run with
      | [] => []
      | _ :: _ => [string_of_list_ascii (rev run)]
      end
  | c :: s' =>
      if is_alpha c then findall_alpha (c :: run) s'
      else
        match run with
        | [] => findall_alpha [] s'
        | _ :: _ => string_of_list_ascii (rev run) :: findall_alpha [] s'
        end
  end.

(** The stopwords used when none are given. *)
Definition default_stopwords : gset string :=
  list_to_set
    [
      "the"; "a"; "an"; "and"; "or"; "but"; "in"; "on"; "at"; "to"; "for";
      "of"; "with"; "by"; "from"; "is"; "was"; "are"; "were"; "be"; "been";
      "being"; "have"; "has"; "had"; "do"; "does"; "did"; "will"; "would";
      "could"; "should"; "may"; "might"; "shall"; "can"; "need"; "dare";
      "ought"; "used"; "it"; "its"; "this"; "that"; "these"; "those"; "i";
      "me"; "my"; "we"; "our"; "you"; "your"; "he"; "him"; "his"; "she";
      "her"; "they"; "them"; "their"; "what"; "which"; "who"; "whom"; "where";
      "when"; "how"; "not"; "no"; "nor"; "as"; "if"; "then"; "than"; "so";
      "just"; "also"; "about"; "up"; "out"; "into"; "over"; "after"; "before";
      "between"; "through"; "during"; "all"; "each"; "every"; "both"; "few";
      "more"; "most"; "other"; "some"; "such"; "only"; "own"; "same"; "very";
      "s"; "t"; "will"; "don"; "now"; "d"; "m"; "o"; "re"; "ve"; "y"; "ain";
      "aren"; "couldn"; "didn"; "doesn"; "hadn"; "hasn"; "haven"; "isn"; "ma";
      "mightn"; "mustn"; "needn"; "shan"; "shouldn"; "wasn"; "weren"; "won";
      "wouldn" ].

(** A dict from words to counts, in insertion order. [freq.get(w, d)]: *)
Fixpoint dict_get (freq : list (string * Z)) (w : string) (d : Z) : Z :=
  match freq with
  | [] => d
  | (k, v) :: rest => if String.eqb k w then v else dict_get rest w d
  end.

(** [freq[w] = v]: a key that is present keeps its place, a new key goes
    last. *)
Fixpoint dict_set (freq : list (string * Z)) (w : string) (v : Z) : list (string * Z) :=
  match freq with
  | [] => [(w, v)]
  | (k, x) :: rest =>
      if String.eqb k w then (k, v) :: rest else (k, x) :: dict_set rest w v
  end.

(** Lines 352-354. *)
Definition count_words (words_filtered : list string) : list (string * Z) :=
  fold_left (fun freq w => dict_set freq w (dict_get freq w 0 + 1)) words_filtered [].

(** Lines 326-349: the words of a text that are counted. The text is a
    string of ASCII characters. *)
Definition filter_words (text : string) (stopwords : option (gset string)) : list string :=
  let stopwords := match stopwords with Some s => s | None => default_stopwords end in
  let words_raw := findall_alpha [] (lower text) in
  List.filter (fun w => negb (bool_decide (w ∈ stopwords)) && (1 <? String.length w)%nat)
              words_raw.

(** The mapping handed to [wordcloud]. *)
Definition text_frequencies (text : string) (stopwords : option (gset string))
  : list (string * Q) :=
  map (fun wf => (fst wf, inject_Z (snd wf))) (count_words (filter_words text stopwords)).

Definition wordcloud_from_text (E : Env) (fuel : nat) (text : string)
    (stopwords : option (gset string)) (c : config) : M (rng E) layout :=
  wordcloud E fuel (text_frequencies text stopwords) c.

(** ** The candidates of a spiral search *)

(** The radius and the angle of the candidate of round [k]. *)
Definition radius_at (c : config) (k : nat) : Q :=
  Nat.iter k (fun r => (r + r_incr c)%Q) 0%Q.

Definition angle_at (c : config) (theta : Q) (k : nat) : Q :=
  Nat.iter k (fun t => (t + theta_step c)%Q) theta.

(** The test of lines 255-257 on the candidate at radius [r] and angle
    [theta]. *)
Definition candidate_fits (E : Env) (wid ht : Q) (boxes : list box) (r theta : Q) : bool :=
  let x1 := ((1 # 2) + r * cos E theta)%Q in
  let y1 := ((1 # 2) + r * sin E theta)%Q in
  let bx := (x1 - (1 # 2) * wid)%Q in
  let by_ := (y1 - (1 # 2) * ht)%Q in
  in_bounds bx by_ wid ht && negb (_is_overlap bx by_ wid ht boxes).

(** The interiors of two boxes share a point. *)
Definition interiors_meet (b1 b2 : box) : Prop :=
  let '(x1, y1, w1, h1) := b1 in
  let '(x2, y2, w2, h2) := b2 in
  exists px py : Q,
    (x1 < px /\ px < x1 + w1 /\ x2 < px /\ px < x2 + w2 /\
     y1 < py /\ py < y1 + h1 /\ y2 < py /\ py < y2 + h2)%Q.

(** A generator whose draws are in range and whose shuffle permutes. *)
Definition rng_in_range (E : Env) : Prop :=
  forall (n : Z) (g : rng E), 0 < n -> 0 <= fst (rand_below E n g) < n.

Definition shuffle_permutes (E : Env) : Prop :=
  forall (x : list (string * Q)) (g : rng E), Permutation x (fst (rand_shuffle E x g)).

(** Text boxes whose right and bottom edges are not before the left and top
    ones, in every font of size 1 or more. *)
Definition bbox_ordered (E : Env) : Prop :=
  forall (word : string) (ft : font),
    1 <= font_size ft ->
    let '(b0, b1, b2, b3) := textbbox E word ft in b0 <= b2 /\ b1 <= b3.

(** What a box and the placement recorded with it say of each other: the
    box is inside the unit square, the pixel of the placement is the centre
    of the box, and the colour is one of the palette. *)
Definition recorded (c : config) (rgb_colors : list rgb) (b : box) (p : placement) : Prop :=
  let '(bx, by_, wid, ht) := b in
  inside_unit_square b /\
  p_px p = py_int ((bx + wid / 2) * inject_Z (width c)) /\
  p_py p = py_int ((by_ + ht / 2) * inject_Z (height c)) /\
  In (p_color p) rgb_colors.

(** The size of a box, read off the placement recorded with it: the text box
    of the word in the font of the placement, in canvas units, its width and
    height exchanged when the placement is rotated. *)
Definition sized (E : Env) (c : config) (b : box) (p : placement) : Prop :=
  let '(_, _, w, h) := b in
  let wid := (inject_Z (fst (box_px E c (p_word p) (p_font p))) / inject_Z (width c))%Q in
  let ht := (inject_Z (snd (box_px E c (p_word p) (p_font p))) / inject_Z (height c))%Q in
  width c <> 0 /\ height c <> 0 /\
  if p_rotated p then w = ht /\ h = wid else w = wid /\ h = ht.

(** A box that is not of negative width or height. *)
Definition nonneg_size (b : box) : Prop :=
  let '(_, _, w, h) := b in (0 <= w /\ 0 <= h)%Q.

(** * Properties *)

(** Inversion of an equation between two outcomes. *)
Ltac inv_ok H := inversion H; subst; clear H.

(** ** The monad *)

Lemma ret_ok {S A} (a b : A) (s s' : S) :
  ret a s = Ok (b, s') -> b = a /\ s' = s.
Proof. unfold ret. intros H. inv_ok H. now split. Qed.

Lemma bind_ok {S A B} (m : M S A) (k : A -> M S B) (s s' : S) (b : B) :
  bind m k s = Ok (b, s') ->
  exists a s1, m s = Ok (a, s1) /\ k a s1 = Ok (b, s').
Proof.
  unfold bind. destruct (m s) as [[a s1] | |]; try discriminate.
  intros H. now exists a, s1.
Qed.

Lemma bind_eq {S A B} (m : M S A) (k : A -> M S B) (s s1 : S) (a : A) :
  m s = Ok (a, s1) -> bind m k s = k a s1.
Proof. unfold bind. now intros ->. Qed.

Lemma truediv_ok {S} (x y q : Q) (s s' : S) :
  truediv x y s = Ok (q, s') -> ~ (y == 0)%Q /\ q = (x / y)%Q /\ s' = s.
Proof.
  unfold truediv. destruct (Qeq_bool y 0) eqn:Hy; [discriminate |].
  intros H. apply ret_ok in H as [-> ->]. repeat split.
  intros H0. apply Qeq_bool_iff in H0. congruence.
Qed.

Lemma truediv_nonzero {S} (x y : Q) (s : S) :
  ~ (y == 0)%Q -> truediv x y s = Ok ((x / y)%Q, s).
Proof.
  intros Hy. unfold truediv.
  destruct (Qeq_bool y 0) eqn:H0; [| reflexivity].
  apply Qeq_bool_iff in H0. contradiction.
Qed.

Lemma bind_raise {S A B} (m : M S A) (k : A -> M S B) (s : S) (e : exn) :
  m s = Raise e -> bind m k s = Raise e.
Proof. unfold bind. now intros ->. Qed.

Lemma truediv_zero {S} (x y : Q) (s : S) :
  (y == 0)%Q -> truediv x y s = Raise ZeroDivisionError.
Proof.
  intros Hy. unfold truediv. apply Qeq_bool_iff in Hy. now rewrite Hy.
Qed.

(** ** Comparisons *)

Lemma Qltb_lt (x y : Q) : Qltb x y = true <-> (x < y)%Q.
Proof.
  unfold Qltb. rewrite negb_true_iff, <- not_true_iff_false, Qle_bool_iff.
  split; [apply Qnot_le_lt | apply Qlt_not_le].
Qed.

Lemma Qltb_ge (x y : Q) : Qltb x y = false <-> (y <= x)%Q.
Proof.
  unfold Qltb. rewrite negb_false_iff, Qle_bool_iff. reflexivity.
Qed.

Lemma Qltb_spec (x y : Q) : reflect (x < y)%Q (Qltb x y).
Proof.
  destruct (Qltb x y) eqn:H; constructor.
  - now apply Qltb_lt.
  - apply Qltb_ge in H. now apply Qle_not_lt.
Qed.

(** ** The overlap test *)

(** The test on one box of the list, as the body of the loop computes it. *)
Lemma overlap_step_spec (x1 y1 w1 h1 x2 y2 w2 h2 : Q) :
  (if Qltb y1 y2
   then (if Qltb x1 x2 then Qltb x2 (x1 + w1) else Qltb x1 (x2 + w2)) && Qltb y2 (y1 + h1)
   else (if Qltb x1 x2 then Qltb x2 (x1 + w1) else Qltb x1 (x2 + w2)) && Qltb y1 (y2 + h2))
  = true <-> rect_overlap (x1, y1, w1, h1) (x2, y2, w2, h2).
Proof.
  unfold rect_overlap, axis_overlap.
  destruct (Qltb_spec y1 y2), (Qltb_spec x1 x2);
    rewrite andb_true_iff, !Qltb_lt; intuition.
Qed.

Lemma is_overlap_exists (x1 y1 w1 h1 : Q) (boxes : list box) :
  _is_overlap x1 y1 w1 h1 boxes = true <->
  exists b, In b boxes /\ rect_overlap (x1, y1, w1, h1) b.
Proof.
  induction boxes as [|[[[x2 y2] w2] h2] rest IH]; simpl.
  - split; [discriminate | intros (b & [] & _)].
  - match goal with |- context [if ?t then true else _] => destruct t eqn:Hov end.
    + split; [intros _ | reflexivity].
      exists (x2, y2, w2, h2). split; [now left | now apply overlap_step_spec].
    + rewrite IH. split.
      * intros (b & Hin & Hb). exists b. split; [now right | exact Hb].
      * intros (b & [<- | Hin] & Hb).
        -- apply overlap_step_spec in Hb. congruence.
        -- exists b. now split.
Qed.

Lemma is_overlap_none (x1 y1 w1 h1 : Q) (boxes : list box) :
  _is_overlap x1 y1 w1 h1 boxes = false <->
  Forall (fun b => ~ rect_overlap (x1, y1, w1, h1) b) boxes.
Proof.
  rewrite <- not_true_iff_false, is_overlap_exists, List.Forall_forall.
  split.
  - intros H b Hin Hb. apply H. exists b. now split.
  - intros H (b & Hin & Hb). now apply (H b).
Qed.

(** C2. [_is_overlap] answers true exactly when some box of the list
    overlaps the candidate under the strict projection test of the spec;
    two boxes that touch along an edge do not overlap; and a box that
    overlaps settles the answer whatever stands before or after it. *)
Theorem is_overlap_correct (x1 y1 w1 h1 : Q) (boxes : list box) :
  (_is_overlap x1 y1 w1 h1 boxes = true <->
   exists b, In b boxes /\ rect_overlap (x1, y1, w1, h1) b) /\
  (forall x2 y2 w2 h2 : Q,
      ((x1 + w1 == x2 /\ 0 < w1) \/ (x2 + w2 == x1 /\ 0 < w2) \/
       (y1 + h1 == y2 /\ 0 < h1) \/ (y2 + h2 == y1 /\ 0 < h2))%Q ->
      _is_overlap x1 y1 w1 h1 [(x2, y2, w2, h2)] = false) /\
  (forall (b : box) (before after : list box),
      rect_overlap (x1, y1, w1, h1) b ->
      _is_overlap x1 y1 w1 h1 (before ++ b :: after) = true).
Proof.
  split; [apply is_overlap_exists | split].
  - intros x2 y2 w2 h2 Htouch.
    apply is_overlap_none. constructor; [| constructor].
    unfold rect_overlap, axis_overlap. intros [[Hx1 Hx2] [Hy1 Hy2]].
    destruct Htouch as [[He Hp] | [[He Hp] | [[He Hp] | [He Hp]]]].
    + assert (x1 < x2)%Q as Hlt by lra. specialize (Hx1 Hlt). lra.
    + assert (~ x1 < x2)%Q as Hge by (apply Qle_not_lt; lra). specialize (Hx2 Hge). lra.
    + assert (y1 < y2)%Q as Hlt by lra. specialize (Hy1 Hlt). lra.
    + assert (~ y1 < y2)%Q as Hge by (apply Qle_not_lt; lra). specialize (Hy2 Hge). lra.
  - intros b before after Hb. apply is_overlap_exists.
    exists b. split; [| exact Hb]. apply in_or_app. right. now left.
Qed.

(** ** Palettes *)

(** C10. A name that is not in [BREWER_PALETTES] raises nothing and gives the
    six fallback colours; a list is returned as it is; a name of the table
    loses its first [skip_light] colours exactly when it is in [sequential]
    and [skip_light] is positive, and is returned whole otherwise. *)
Theorem get_palette_colors_cases (skip_light : Z) :
  (forall name : string,
      BREWER_PALETTES !! name = None ->
      _get_palette_colors (PaletteName name) skip_light
      = ["#1B9E77"; "#D95F02"; "#7570B3"; "#E7298A"; "#66A61E"; "#E6AB02"]) /\
  (forall colors : list string,
      _get_palette_colors (PaletteList colors) skip_light = colors) /\
  (forall (name : string) (colors : list string),
      BREWER_PALETTES !! name = Some colors ->
      _get_palette_colors (PaletteName name) skip_light
      = if decide (name ∈ sequential /\ 0 < skip_light)
        then skipn (Z.to_nat skip_light) colors
        else colors).
Proof.
  repeat split.
  - intros name Hname. unfold _get_palette_colors. now rewrite Hname.
  - intros name colors Hname. unfold _get_palette_colors. rewrite Hname.
    destruct (decide (name ∈ sequential /\ 0 < skip_light)) as [[Hs Hk] | Hno].
    + destruct (bool_decide (name ∈ sequential)) eqn:Hb;
        [| apply bool_decide_eq_false in Hb; contradiction].
      replace (0 <? skip_light) with true by (symmetry; now apply Z.ltb_lt).
      unfold slice_from. simpl.
      replace (0 <=? skip_light) with true by (symmetry; apply Z.leb_le; lia).
      reflexivity.
    + destruct (bool_decide (name ∈ sequential)) eqn:Hs; [| reflexivity].
      destruct (0 <? skip_light) eqn:Hk; [| reflexivity].
      exfalso. apply Hno. split.
      * now apply bool_decide_eq_true in Hs.
      * now apply Z.ltb_lt.
Qed.

(** ** Descenders *)

Lemma lower_in_TAILS (c : ascii) :
  bool_decide (ascii_lower c ∈ TAILS) = existsb (Ascii.eqb c) tail_letters.
Proof.
  destruct c as [[] [] [] [] [] [] [] []]; vm_compute; reflexivity.
Qed.

Lemma has_tails_letters (word : string) :
  _has_tails word = true <->
  exists c, In c (list_ascii_of_string word) /\ In c tail_letters.
Proof.
  unfold _has_tails, lower. rewrite existsb_exists. split.
  - intros (c' & Hin & Hc'). apply in_map_iff in Hin as (c & <- & Hin).
    rewrite lower_in_TAILS in Hc'. apply existsb_exists in Hc' as (t & Ht & Heq).
    apply Ascii.eqb_eq in Heq. subst t. now exists c.
  - intros (c & Hin & Hc). exists (ascii_lower c). split.
    + now apply in_map.
    + rewrite lower_in_TAILS. apply existsb_exists. exists c.
      split; [exact Hc | apply Ascii.eqb_refl].
Qed.

Lemma inflate_fifth (th_px : Z) :
  py_int (inject_Z th_px + inject_Z th_px * (1 # 5)) = Z.quot (6 * th_px) 5.
Proof.
  unfold py_int. simpl. f_equal. lia.
Qed.

(** C4, as the code has it. The test is made on the lowercased word, so the
    height becomes [int(1.2 * height)] exactly when the word contains one of
    g, j, p, q, y in either case; a word with none of these ten characters
    keeps its height. *)
Theorem tails_height_cases (word : string) (th_px : Z) :
  (_has_tails word = true <->
   exists c, In c (list_ascii_of_string word) /\ In c tail_letters) /\
  ((exists c, In c (list_ascii_of_string word) /\ In c tail_letters) ->
   tails_height word th_px = Z.quot (6 * th_px) 5) /\
  ((forall c, In c (list_ascii_of_string word) -> ~ In c tail_letters) ->
   tails_height word th_px = th_px).
Proof.
  split; [apply has_tails_letters | split].
  - intros H. apply has_tails_letters in H. unfold tails_height.
    rewrite H. apply inflate_fifth.
  - intros H. unfold tails_height.
    destruct (_has_tails word) eqn:Ht; [| reflexivity].
    apply has_tails_letters in Ht as (c & Hin & Hc). now destruct (H c Hin).
Qed.

(** C4 as stated fails on capitals: "GO" has none of the lowercase letters
    g, j, p, q, y, and yet its height is inflated, from 10 to 12. *)
Lemma tails_lowercase_only_fails :
  (forall c, In c (list_ascii_of_string "GO") ->
             ~ In c (list_ascii_of_string "gjpqy")) /\
  _has_tails "GO" = true /\
  tails_height "GO" 10 = 12.
Proof.
  split; [| split; vm_compute; reflexivity].
  intros c [<- | [<- | []]] Hin; simpl in Hin;
    repeat (destruct Hin as [Hin | Hin]; [discriminate Hin |]); exact Hin.
Qed.

(** ** Filtering and ranking *)

Lemma insert_desc_perm (x : string * Q) (l : list (string * Q)) :
  Permutation (x :: l) (insert_desc x l).
Proof.
  induction l as [|y l IH]; simpl; [reflexivity |].
  destruct (Qle_bool (snd y) (snd x)); [reflexivity |].
  rewrite perm_swap. now constructor.
Qed.

Lemma sort_desc_perm (l : list (string * Q)) : Permutation l (sort_desc l).
Proof.
  induction l as [|x l IH]; simpl; [constructor |].
  rewrite <- insert_desc_perm. now constructor.
Qed.

Lemma insert_desc_sorted (x : string * Q) (l : list (string * Q)) :
  StronglySorted desc l -> StronglySorted desc (insert_desc x l).
Proof.
  induction l as [|y l IH]; simpl; intros Hs.
  - repeat constructor.
  - apply StronglySorted_inv in Hs as [Hs Hy].
    destruct (Qle_bool (snd y) (snd x)) eqn:Hle.
    + apply Qle_bool_iff in Hle. constructor.
      * now constructor.
      * constructor; [exact Hle |].
        eapply List.Forall_impl; [| exact Hy]. unfold desc. intros z Hz. lra.
    + constructor; [now apply IH |].
      apply (Permutation_Forall (insert_desc_perm x l)).
      constructor; [| exact Hy]. unfold desc.
      assert (~ (snd y <= snd x)%Q) as Hn by (rewrite <- Qle_bool_iff; congruence).
      apply Qnot_le_lt in Hn. lra.
Qed.

Lemma sort_desc_sorted (l : list (string * Q)) : StronglySorted desc (sort_desc l).
Proof.
  induction l as [|x l IH]; simpl; [constructor | now apply insert_desc_sorted].
Qed.

Lemma insert_desc_stable (q : Q) (x : string * Q) (l : list (string * Q)) :
  with_freq q (insert_desc x l) = with_freq q (x :: l).
Proof.
  unfold with_freq. induction l as [|y l IH]; simpl; [reflexivity |].
  destruct (Qle_bool (snd y) (snd x)) eqn:Hle; [reflexivity |].
  simpl. rewrite IH. simpl.
  destruct (Qeq_bool (snd x) q) eqn:Hx; [| reflexivity].
  destruct (Qeq_bool (snd y) q) eqn:Hy; [| reflexivity].
  apply Qeq_bool_iff in Hx, Hy.
  assert ((snd y <= snd x)%Q) as H by lra.
  apply Qle_bool_iff in H. congruence.
Qed.

Lemma sort_desc_stable (q : Q) (l : list (string * Q)) :
  with_freq q (sort_desc l) = with_freq q l.
Proof.
  induction l as [|x l IH]; simpl; [reflexivity |].
  rewrite insert_desc_stable. unfold with_freq in *. simpl. now rewrite IH.
Qed.

(** C3. The words kept are the entries whose frequency reaches [min_freq];
    they are ranked by descending frequency, entries of one frequency staying
    in the order of the input; [select_words] is the front of that ranking,
    of at most [max_words] entries; and without [random_order] the placement
    is attempted in exactly that order. *)
Theorem select_words_ranked (E : Env) (c : config) (frequencies : list (string * Q)) :
  let kept := List.filter (fun wf => Qle_bool (min_freq c) (snd wf)) frequencies in
  let ranked := sort_desc kept in
  (forall wf, In wf kept <-> In wf frequencies /\ (min_freq c <= snd wf)%Q) /\
  Permutation kept ranked /\
  StronglySorted desc ranked /\
  (forall q, with_freq q ranked = with_freq q kept) /\
  select_words c frequencies = slice_to ranked (max_words c) /\
  (0 <= max_words c ->
   select_words c frequencies = firstn (Z.to_nat (max_words c)) ranked /\
   Z.of_nat (length (select_words c frequencies)) <= max_words c) /\
  (random_order c = false ->
   forall g, placement_order E c (select_words c frequencies) g
             = Ok (select_words c frequencies, g)).
Proof.
  intros kept ranked.
  split; [| split; [| split; [| split; [| split; [| split]]]]].
  - intros wf. unfold kept. rewrite filter_In, Qle_bool_iff. reflexivity.
  - apply sort_desc_perm.
  - apply sort_desc_sorted.
  - intros q. apply sort_desc_stable.
  - reflexivity.
  - intros Hk. unfold select_words, slice_to. fold kept. fold ranked.
    replace (0 <=? max_words c) with true by (symmetry; now apply Z.leb_le).
    split; [reflexivity |].
    pose proof (firstn_le_length (Z.to_nat (max_words c)) ranked). lia.
  - intros Hr g. unfold placement_order. now rewrite Hr.
Qed.

(** ** Sizes *)

Lemma fold_max_init (l : list Q) (x : Q) :
  (x <= fold_left (fun m y => if Qltb m y then y else m) l x)%Q.
Proof.
  revert x. induction l as [|y l IH]; intros x; simpl; [lra |].
  destruct (Qltb_spec x y) as [Hlt | Hge].
  - specialize (IH y). lra.
  - apply IH.
Qed.

Lemma fold_max_elem (l : list Q) (x y : Q) :
  In y l -> (y <= fold_left (fun m y => if Qltb m y then y else m) l x)%Q.
Proof.
  revert x. induction l as [|z l IH]; intros x; simpl; [intros [] |].
  intros [-> | Hin]; [| now apply IH].
  destruct (Qltb_spec x y) as [Hlt | Hge].
  - apply fold_max_init.
  - apply Qnot_lt_le in Hge.
    pose proof (fold_max_init l x). lra.
Qed.

Lemma py_max_upper {S} (l : list Q) (g g' : S) (m : Q) :
  py_max l g = Ok (m, g') -> g' = g /\ Forall (fun f => (f <= m)%Q) l.
Proof.
  destruct l as [|x l]; [discriminate |].
  unfold py_max. intros H. apply ret_ok in H as [-> ->]. split; [reflexivity |].
  constructor; [apply fold_max_init |].
  apply List.Forall_forall. intros y Hy. now apply fold_max_elem.
Qed.

Lemma mapM_truediv {S} (m : Q) (l : list Q) (g g' : S) (r : list Q) :
  mapM (fun f => truediv f m) l g = Ok (r, g') ->
  g' = g /\ r = map (fun f => (f / m)%Q) l /\ (l <> [] -> ~ (m == 0)%Q).
Proof.
  revert r. induction l as [|f l IH]; intros r; simpl.
  - intros H. apply ret_ok in H as [-> ->]. now repeat split.
  - intros H.
    apply bind_ok in H as (q & g1 & Hq & H).
    apply bind_ok in H as (r' & g2 & Hr & H).
    apply ret_ok in H as [-> ->].
    apply truediv_ok in Hq as (Hm & -> & ->).
    apply IH in Hr as (-> & -> & _). now repeat split.
Qed.

Lemma normalize_spec (E : Env) (freqs nfs : list Q) (g g' : rng E) :
  normalize E freqs g = Ok (nfs, g') ->
  exists max_freq,
    py_max freqs g = Ok (max_freq, g) /\
    Forall (fun f => (f <= max_freq)%Q) freqs /\
    (freqs <> [] -> ~ (max_freq == 0)%Q) /\
    nfs = map (fun f => (f / max_freq)%Q) freqs /\ g' = g.
Proof.
  unfold normalize. intros H.
  apply bind_ok in H as (m & g1 & Hmax & Hmap).
  destruct (py_max_upper _ _ _ _ Hmax) as [-> Hup].
  destruct (mapM_truediv _ _ _ _ _ Hmap) as (-> & -> & Hnz).
  exists m. now repeat split.
Qed.




(** ** Colours *)

Lemma py_index_in_range {A} (l : list A) (i : Z) :
  0 <= i < Z.of_nat (length l) ->
  exists a, nth_error l (Z.to_nat i) = Some a /\ py_index l i = Some a.
Proof.
  intros Hi. unfold py_index.
  replace (0 <=? i) with true by (symmetry; apply Z.leb_le; lia).
  replace (i <? Z.of_nat (length l)) with true by (symmetry; apply Z.ltb_lt; lia).
  simpl.
  destruct (nth_error l (Z.to_nat i)) as [a |] eqn:Hn; [now exists a |].
  apply nth_error_None in Hn. lia.
Qed.

Lemma getitem_in_range {S A} (l : list A) (i : Z) (s : S) :
  0 <= i < Z.of_nat (length l) ->
  exists a, nth_error l (Z.to_nat i) = Some a /\ getitem l i s = Ok (a, s).
Proof.
  intros Hi. destruct (py_index_in_range l i Hi) as (a & Hn & Hp).
  exists a. split; [exact Hn |]. unfold getitem. now rewrite Hp.
Qed.

Lemma bucket_index_range (N : Z) (nf : Q) :
  1 <= N -> 0 <= bucket_index N nf < N.
Proof. unfold bucket_index, clamp. lia. Qed.

(** The index the code computes is the bucket index of the spec. *)
Lemma code_bucket_index (N : Z) (nf : Q) :
  Z.max 0 (Z.min (math_ceil (inject_Z N * nf)) N - 1) = bucket_index N nf.
Proof. unfold bucket_index, clamp, math_ceil. lia. Qed.

Lemma mapM_length {S A B} (f : A -> M S B) (l : list A) (r : list B) (s s' : S) :
  mapM f l s = Ok (r, s') -> length r = length l.
Proof.
  revert r s s'. induction l as [|x l IH]; intros r s s' H; simpl in H.
  - apply ret_ok in H as [-> _]. reflexivity.
  - apply bind_ok in H as (y & s1 & _ & H).
    apply bind_ok in H as (ys & s2 & Hys & H).
    apply ret_ok in H as [-> _]. simpl. f_equal. eapply IH, Hys.
Qed.



(** ** The layout invariant *)

Lemma in_bounds_inside (bx by_ wid ht : Q) :
  in_bounds bx by_ wid ht = true <-> inside_unit_square (bx, by_, wid, ht).
Proof.
  unfold in_bounds, inside_unit_square.
  rewrite !andb_true_iff, !Qltb_lt. tauto.
Qed.

Lemma axis_overlap_sym (a1 l1 a2 l2 : Q) :
  (0 < l1)%Q -> (0 < l2)%Q -> axis_overlap a1 l1 a2 l2 -> axis_overlap a2 l2 a1 l1.
Proof.
  unfold axis_overlap. intros H1 H2 [Hlt Hge].
  destruct (Q_dec a1 a2) as [[Hc | Hc] | Hc].
  - specialize (Hlt Hc). split; intros H; lra.
  - assert (~ a1 < a2)%Q as Hn by (apply Qle_not_lt; lra).
    specialize (Hge Hn). split; intros H; [lra |].
    exfalso. apply H. exact Hc.
  - split; intros H; lra.
Qed.

Lemma rect_overlap_sym (b1 b2 : box) :
  positive_size b1 -> positive_size b2 -> rect_overlap b1 b2 -> rect_overlap b2 b1.
Proof.
  destruct b1 as [[[x1 y1] w1] h1], b2 as [[[x2 y2] w2] h2]. simpl.
  intros [Hw1 Hh1] [Hw2 Hh2] [Hx Hy]. split; now apply axis_overlap_sym.
Qed.

Lemma clear_of_earlier_snoc (boxes : list box) (b : box) :
  clear_of_earlier boxes ->
  Forall (fun b' => ~ rect_overlap b b') boxes ->
  clear_of_earlier (boxes ++ [b]).
Proof.
  intros Hclear Hb i j bi bj Hij Hi Hj.
  assert (j < length (boxes ++ [b]))%nat as Hlen by (apply nth_error_Some; congruence).
  rewrite length_app in Hlen. simpl in Hlen.
  destruct (Nat.eq_dec j (length boxes)) as [-> | Hne].
  - rewrite nth_error_app2, Nat.sub_diag in Hj by lia. injection Hj as <-.
    rewrite nth_error_app1 in Hi by lia.
    rewrite List.Forall_forall in Hb. apply Hb. eapply nth_error_In, Hi.
  - rewrite nth_error_app1 in Hi, Hj by lia. now apply (Hclear i j).
Qed.

Lemma layout_ok_empty : layout_ok ([], []).
Proof.
  split; [constructor |]. intros i j bi bj _ Hi. now destruct i.
Qed.

Lemma foldM_invariant {S A St} (P : St -> Prop) (body : St -> A -> M S St) :
  (forall st x s st' s', body st x s = Ok (st', s') -> P st -> P st') ->
  forall l st s st' s', foldM body l st s = Ok (st', s') -> P st -> P st'.
Proof.
  intros Hbody. induction l as [|x l IH]; simpl; intros st s st' s' H Hst.
  - apply ret_ok in H as [-> _]. exact Hst.
  - apply bind_ok in H as (st1 & s1 & H1 & H). eauto.
Qed.

Section Invariant.

Variable E : Env.

Lemma spiral_layout_ok (fuel : nat) (c : config) (rgb_colors : list rgb) (nc : Z)
    (word : string) (ft : font) (nf wid ht : Q) (rot_word : bool) (st : layout) :
  forall (r theta : Q) (g g' : rng E) (st' : layout),
    spiral E fuel c rgb_colors nc word ft nf wid ht rot_word st r theta g = Ok (st', g') ->
    layout_ok st -> layout_ok st'.
Proof.
  induction fuel as [|fuel IH]; intros r theta g g' st' H Hst; [discriminate |].
  simpl in H.
  match type of H with (if ?t then _ else _) _ = _ => destruct t eqn:Htest end.
  - unfold record_placement in H.
    apply bind_ok in H as (cc & g1 & _ & H). apply ret_ok in H as [-> _].
    apply andb_true_iff in Htest as [Hin Hov].
    apply in_bounds_inside in Hin.
    apply negb_true_iff, is_overlap_none in Hov.
    destruct Hst as [Hall Hclear]. split; simpl.
    + apply Forall_app. split; [exact Hall | now constructor].
    + now apply clear_of_earlier_snoc.
  - destruct (Qltb sqrt_half r).
    + apply ret_ok in H as [-> _]. exact Hst.
    + eapply IH; eassumption.
Qed.

Lemma place_word_layout_ok (fuel : nat) (c : config) (rgb_colors : list rgb) (nc : Z)
    (st st' : layout) (entry : string * (Q * Q)) (g g' : rng E) :
  place_word E fuel c rgb_colors nc st entry g = Ok (st', g') ->
  layout_ok st -> layout_ok st'.
Proof.
  destruct entry as [word [nf cex]]. unfold place_word. intros H.
  apply bind_ok in H as (sz & g1 & _ & H).
  apply bind_ok in H as (u & g2 & _ & H).
  destruct (if Qltb u (rot_per c) then (snd sz, fst sz) else sz) as [wid ht].
  apply bind_ok in H as (theta & g3 & _ & H).
  eapply spiral_layout_ok, H.
Qed.

Lemma wordcloud_layout_ok (fuel : nat) (frequencies : list (string * Q)) (c : config)
    (g g' : rng E) (st : layout) :
  wordcloud E fuel frequencies c g = Ok (st, g') -> layout_ok st.
Proof.
  unfold wordcloud. intros H.
  apply bind_ok in H as (? & g1 & _ & H).
  apply bind_ok in H as (rgb_colors & g2 & _ & H).
  destruct (select_words c frequencies) as [|wf wfs].
  - apply ret_ok in H as [-> _]. apply layout_ok_empty.
  - apply bind_ok in H as (words_freqs & g3 & _ & H).
    apply bind_ok in H as (normed_freq & g4 & _ & H).
    eapply (foldM_invariant layout_ok); [| exact H | apply layout_ok_empty].
    intros. eapply place_word_layout_ok; eassumption.
Qed.

End Invariant.

(** C1. In every layout that [wordcloud] returns, each recorded box lies
    strictly inside the unit square, and each box passes the non-overlap test
    against every box recorded before it; for two boxes of positive width and
    height the test fails in the other order as well. *)
Theorem wordcloud_boxes_invariant (E : Env) (fuel : nat)
    (frequencies : list (string * Q)) (c : config) (g g' : rng E)
    (boxes : list box) (placed : list placement) :
  wordcloud E fuel frequencies c g = Ok ((boxes, placed), g') ->
  Forall inside_unit_square boxes /\
  (forall (i j : nat) (bi bj : box),
      (i < j)%nat -> nth_error boxes i = Some bi -> nth_error boxes j = Some bj ->
      ~ rect_overlap bj bi /\
      (positive_size bi -> positive_size bj -> ~ rect_overlap bi bj)).
Proof.
  intros H. apply wordcloud_layout_ok in H as [Hin Hclear]. simpl in *.
  split; [exact Hin |].
  intros i j bi bj Hij Hi Hj.
  pose proof (Hclear i j bi bj Hij Hi Hj) as Hno.
  split; [exact Hno |].
  intros Hpi Hpj Hov. apply Hno. now apply rect_overlap_sym.
Qed.

(** The scenario places its three words. *)
Lemma wordcloud_boxes_invariant_witness :
  exists boxes placed g',
    wordcloud Sample.env 20 Sample.scenario_words Sample.scenario 0
    = Ok ((boxes, placed), g') /\
    length boxes = 3%nat /\
    Forall inside_unit_square boxes /\
    (forall (i j : nat) (bi bj : box),
        (i < j)%nat -> nth_error boxes i = Some bi -> nth_error boxes j = Some bj ->
        ~ rect_overlap bj bi /\
        (positive_size bi -> positive_size bj -> ~ rect_overlap bi bj)).
Proof.
  eexists _, _, _.
  split; [vm_compute; reflexivity |].
  split; [reflexivity |].
  eapply (wordcloud_boxes_invariant Sample.env 20 Sample.scenario_words
                                    Sample.scenario 0).
  vm_compute; reflexivity.
Defined.

(** ** Termination *)

Lemma halts_ret {S A} (a : A) : halts (@ret S A a).
Proof. intros s. discriminate. Qed.

Lemma halts_raise {S A} (e : exn) : halts (@raise S A e).
Proof. intros s. discriminate. Qed.

Lemma halts_bind {S A B} (m : M S A) (k : A -> M S B) :
  halts m -> (forall a, halts (k a)) -> halts (bind m k).
Proof.
  intros Hm Hk s. unfold bind.
  destruct (m s) as [[a s1] | e |] eqn:Hs.
  - apply Hk.
  - discriminate.
  - now destruct (Hm s).
Qed.

Lemma halts_mapM {S A B} (f : A -> M S B) (l : list A) :
  (forall a, halts (f a)) -> halts (mapM f l).
Proof.
  intros Hf. induction l as [|x l IH]; simpl.
  - apply halts_ret.
  - apply halts_bind; [apply Hf | intros y].
    apply halts_bind; [exact IH | intros ys]. apply halts_ret.
Qed.

Lemma halts_foldM {S A St} (body : St -> A -> M S St) (l : list A) :
  (forall st a, halts (body st a)) -> forall st, halts (foldM body l st).
Proof.
  intros Hb. induction l as [|x l IH]; intros st; simpl.
  - apply halts_ret.
  - apply halts_bind; [apply Hb | exact IH].
Qed.

Lemma halts_truediv {S} (x y : Q) : halts (@truediv S x y).
Proof.
  unfold truediv. destruct (Qeq_bool y 0); [apply halts_raise | apply halts_ret].
Qed.

Lemma halts_getitem {S A} (l : list A) (i : Z) : halts (@getitem S A l i).
Proof.
  unfold getitem. destruct (py_index l i); [apply halts_ret | apply halts_raise].
Qed.

Lemma halts_py_max {S} (l : list Q) : halts (@py_max S l).
Proof.
  destruct l; [apply halts_raise | apply halts_ret].
Qed.

Create HintDb halting.

#[local] Hint Resolve halts_ret halts_raise halts_truediv halts_getitem
  halts_py_max : halting.

(** One step through a command built with [bind], [mapM] and the like. *)
Ltac halting :=
  repeat first
    [ apply halts_bind; [| intros ?]
    | apply halts_mapM; intros ?
    | solve [auto with halting] ].

Section Termination.

Variable E : Env.

Lemma halts_random : halts (@random E).
Proof. intros g. discriminate. Qed.

Lemma halts_uniform (a b : Q) : halts (uniform E a b).
Proof. unfold uniform. apply halts_bind; [apply halts_random | intros u; apply halts_ret]. Qed.

Lemma halts_randint (a b : Z) : halts (randint E a b).
Proof.
  unfold randint. destruct (0 <? b + 1 - a); [| apply halts_raise].
  intros g. destruct (rand_below E (b + 1 - a) g). discriminate.
Qed.

Lemma halts_shuffle (x : list (string * Q)) : halts (shuffle E x).
Proof. intros g. discriminate. Qed.

Lemma halts_set_seed (s : option Z) : halts (set_seed E s).
Proof. destruct s; [intros g; discriminate | apply halts_ret]. Qed.

Lemma halts_parse16 (s : string) : halts (parse16 E s).
Proof. unfold parse16. destruct (int16 E s); auto with halting. Qed.

#[local] Hint Resolve halts_random halts_uniform halts_randint halts_shuffle
  halts_set_seed halts_parse16 : halting.

Lemma halts_hex_to_rgb (hex_color : string) : halts (_hex_to_rgb E hex_color).
Proof. unfold _hex_to_rgb. halting. Qed.

Lemma halts_placement_order (c : config) (wfs : list (string * Q)) :
  halts (placement_order E c wfs).
Proof. unfold placement_order. destruct (random_order c); auto with halting. Qed.

Lemma halts_normalize (freqs : list Q) : halts (normalize E freqs).
Proof. unfold normalize. halting. Qed.

Lemma halts_choose_color (c : config) (rgb_colors : list rgb) (nc : Z) (nf : Q) :
  halts (choose_color E c rgb_colors nc nf).
Proof. unfold choose_color. destruct (random_color c); halting. Qed.

Lemma halts_box_size (c : config) (word : string) (ft : font) :
  halts (box_size E c word ft).
Proof.
  unfold box_size. destruct (box_px E c word ft) as [tw_px th_px]. halting.
Qed.

#[local] Hint Resolve halts_hex_to_rgb halts_placement_order halts_normalize
  halts_choose_color halts_box_size : halting.

Lemma halts_record_placement (c : config) (rgb_colors : list rgb) (nc : Z)
    (word : string) (ft : font) (nf : Q) (rot_word : bool) (st : layout)
    (x1 y1 bx by_ wid ht : Q) :
  halts (record_placement E c rgb_colors nc word ft nf rot_word st x1 y1 bx by_ wid ht).
Proof. unfold record_placement. halting. Qed.

Lemma two_pi_pos : (0 < 2 * math_pi)%Q.
Proof. reflexivity. Qed.

Lemma r_incr_pos (c : config) :
  (0 < theta_step c)%Q -> (0 < r_step c)%Q -> (0 < r_incr c)%Q.
Proof.
  intros Ht Hr. unfold r_incr, Qdiv.
  apply Qmult_lt_0_compat.
  - now apply Qmult_lt_0_compat.
  - apply Qinv_lt_0_compat, two_pi_pos.
Qed.

(** Fuel at least [spiral_bound] carries the radius past the cutoff. *)
Lemma spiral_bound_reaches (c : config) (k : nat) :
  (0 < r_incr c)%Q -> (spiral_bound c <= S k)%nat ->
  (sqrt_half < 0 + inject_Z (Z.of_nat k) * r_incr c)%Q.
Proof.
  intros Hd Hk. unfold spiral_bound in Hk.
  set (d := r_incr c) in *. set (z := Qceiling (sqrt_half / d)) in *.
  assert (z + 1 <= Z.of_nat k) as Hz by lia.
  pose proof (Qle_ceiling (sqrt_half / d)) as Hceil. fold z in Hceil.
  assert (inject_Z z + 1 <= inject_Z (Z.of_nat k))%Q as Hq.
  { change 1%Q with (inject_Z 1). rewrite <- inject_Z_plus, <- Zle_Qle. exact Hz. }
  assert ((sqrt_half / d + 1) * d <= inject_Z (Z.of_nat k) * d)%Q as Hmul.
  { apply Qmult_le_compat_r; lra. }
  assert ((sqrt_half / d + 1) * d == sqrt_half + d)%Q as Heq.
  { field. intros H0. rewrite H0 in Hd. now apply Qlt_irrefl in Hd. }
  lra.
Qed.

End Termination.

Section Search.

Variable E : Env.
Variables (c : config) (rgb_colors : list rgb) (nc : Z) (word : string)
          (ft : font) (nf wid ht : Q) (rot_word : bool) (st : layout).

Local Abbreviation search fuel r theta :=
  (spiral E fuel c rgb_colors nc word ft nf wid ht rot_word st r theta).

Local Abbreviation accept x1 y1 bx by_ :=
  (record_placement E c rgb_colors nc word ft nf rot_word st x1 y1 bx by_ wid ht).

(** With the cutoff within reach of the fuel, the search ends in one of
    two ways: the word is dropped, or a candidate in bounds is accepted. *)
Lemma spiral_cases (k : nat) :
  forall (r theta : Q) (g : rng E),
    (sqrt_half < r + inject_Z (Z.of_nat k) * r_incr c)%Q ->
    search (S k) r theta g = Ok (st, g) \/
    exists x1 y1 bx by_,
      in_bounds bx by_ wid ht = true /\
      search (S k) r theta g = accept x1 y1 bx by_ g.
Proof.
  induction k as [|k IH]; intros r theta g Hr.
  - cbn [spiral].
    match goal with |- context [if ?t then _ else _] => destruct t eqn:Htest end.
    + right. apply andb_true_iff in Htest as [Hin _]. eauto 6.
    + left. replace (Qltb sqrt_half r) with true; [reflexivity |].
      symmetry. apply Qltb_lt.
      change (inject_Z (Z.of_nat 0)) with 0%Q in Hr. lra.
  - cbn [spiral].
    match goal with |- context [if ?t then _ else _] => destruct t eqn:Htest end.
    + right. apply andb_true_iff in Htest as [Hin _]. eauto 6.
    + destruct (Qltb sqrt_half r); [now left |].
      apply IH.
      rewrite Nat2Z.inj_succ, <- Z.add_1_r, inject_Z_plus in Hr.
      change (inject_Z 1) with 1%Q in Hr. lra.
Qed.

Lemma spiral_halts (fuel : nat) (theta : Q) :
  (0 < theta_step c)%Q -> (0 < r_step c)%Q -> (spiral_bound c <= fuel)%nat ->
  halts (search fuel 0 theta).
Proof.
  intros Ht Hr Hfuel g.
  destruct fuel as [|k]; [unfold spiral_bound in Hfuel; lia |].
  destruct (spiral_cases k 0 theta g) as [H | (x1 & y1 & bx & by_ & _ & H)].
  - apply spiral_bound_reaches; [now apply r_incr_pos | exact Hfuel].
  - rewrite H. discriminate.
  - rewrite H. apply halts_record_placement.
Qed.

(** A box as wide or as high as the canvas is in bounds nowhere. *)
Lemma oversize_out_of_bounds (bx by_ : Q) :
  (1 <= wid \/ 1 <= ht)%Q -> in_bounds bx by_ wid ht = false.
Proof.
  intros Hbig. apply not_true_iff_false. intros H.
  apply in_bounds_inside in H. unfold inside_unit_square in H. lra.
Qed.

Lemma spiral_oversize (fuel : nat) (theta : Q) (g : rng E) :
  (0 < theta_step c)%Q -> (0 < r_step c)%Q -> (spiral_bound c <= fuel)%nat ->
  (1 <= wid \/ 1 <= ht)%Q ->
  search fuel 0 theta g = Ok (st, g).
Proof.
  intros Ht Hr Hfuel Hbig.
  destruct fuel as [|k]; [unfold spiral_bound in Hfuel; lia |].
  destruct (spiral_cases k 0 theta g) as [H | (x1 & y1 & bx & by_ & Hin & _)].
  - apply spiral_bound_reaches; [now apply r_incr_pos | exact Hfuel].
  - exact H.
  - rewrite oversize_out_of_bounds in Hin by exact Hbig. discriminate.
Qed.

End Search.

Section Run.

Variable E : Env.

Lemma random_ok (g : rng E) :
  random g = Ok (fst (rand_random E g), snd (rand_random E g)).
Proof. unfold random. now destruct (rand_random E g). Qed.

Lemma uniform_ok (a b : Q) (g : rng E) :
  uniform E a b g
  = Ok ((a + (b - a) * fst (rand_random E g))%Q, snd (rand_random E g)).
Proof. unfold uniform. now rewrite (bind_eq _ _ _ _ _ (random_ok g)). Qed.

Lemma place_word_halts (fuel : nat) (c : config) (rgb_colors : list rgb) (nc : Z)
    (st : layout) (entry : string * (Q * Q)) :
  (0 < theta_step c)%Q -> (0 < r_step c)%Q -> (spiral_bound c <= fuel)%nat ->
  halts (place_word E fuel c rgb_colors nc st entry).
Proof.
  intros Ht Hr Hfuel. destruct entry as [word [nf cex]]. unfold place_word.
  apply halts_bind; [apply halts_box_size | intros sz].
  apply halts_bind; [apply halts_random | intros u].
  destruct (if Qltb u (rot_per c) then (snd sz, fst sz) else sz) as [wid ht].
  apply halts_bind; [apply halts_uniform | intros theta].
  now apply spiral_halts.
Qed.

Lemma wordcloud_halts (fuel : nat) (frequencies : list (string * Q)) (c : config) :
  (0 < theta_step c)%Q -> (0 < r_step c)%Q -> (spiral_bound c <= fuel)%nat ->
  halts (wordcloud E fuel frequencies c).
Proof.
  intros Ht Hr Hfuel. unfold wordcloud.
  apply halts_bind; [apply halts_set_seed | intros _].
  apply halts_bind; [apply halts_mapM, halts_hex_to_rgb | intros rgb_colors].
  destruct (select_words c frequencies) as [|wf wfs]; [apply halts_ret |].
  apply halts_bind; [apply halts_placement_order | intros words_freqs].
  apply halts_bind; [apply halts_normalize | intros normed_freq].
  apply halts_foldM. intros st entry. now apply place_word_halts.
Qed.

Lemma box_size_ok (c : config) (word : string) (ft : font) (g : rng E) :
  width c <> 0 -> height c <> 0 ->
  box_size E c word ft g
  = Ok ((inject_Z (fst (box_px E c word ft)) / inject_Z (width c),
         inject_Z (snd (box_px E c word ft)) / inject_Z (height c))%Q, g).
Proof.
  intros Hw Hh. unfold box_size. destruct (box_px E c word ft) as [tw_px th_px].
  assert (forall z, z <> 0 -> ~ (inject_Z z == 0)%Q) as Hz.
  { intros z Hz H0. apply Hz. apply inject_Z_injective. exact H0. }
  rewrite (bind_eq _ _ _ _ _ (truediv_nonzero _ _ _ (Hz _ Hw))).
  rewrite (bind_eq _ _ _ _ _ (truediv_nonzero _ _ _ (Hz _ Hh))).
  reflexivity.
Qed.

Lemma box_size_zero_canvas (c : config) (word : string) (ft : font) (g : rng E) :
  width c = 0 \/ height c = 0 ->
  box_size E c word ft g = Raise ZeroDivisionError.
Proof.
  intros Hz. unfold box_size. destruct (box_px E c word ft) as [tw_px th_px].
  unfold bind.
  destruct (Z.eq_dec (width c) 0) as [Hw | Hw].
  - rewrite Hw. now rewrite truediv_zero.
  - destruct Hz as [Hz | Hz]; [contradiction |].
    destruct (truediv (inject_Z tw_px) (inject_Z (width c)) g) as [[wid g1] | e |] eqn:Hd.
    + rewrite Hz. now rewrite truediv_zero.
    + unfold truediv in Hd.
      destruct (Qeq_bool (inject_Z (width c)) 0); [| discriminate].
      unfold raise in Hd. congruence.
    + now destruct (halts_truediv _ _ _ Hd).
Qed.

Lemma div_ge_one (a b : Z) : 0 < b -> b <= a -> (1 <= inject_Z a / inject_Z b)%Q.
Proof.
  intros Hb Hab.
  assert (0 < inject_Z b)%Q as Hbq.
  { change 0%Q with (inject_Z 0). now rewrite <- Zlt_Qlt. }
  assert (inject_Z b <= inject_Z a)%Q as Habq by now rewrite <- Zle_Qle.
  apply Qle_shift_div_l; [exact Hbq | lra].
Qed.

(** A word whose box in pixels is as wide or as high as the canvas is
    dropped: the layout is left as it was. *)
Lemma place_word_oversize (fuel : nat) (c : config) (rgb_colors : list rgb) (nc : Z)
    (st : layout) (word : string) (nf cex : Q) (g : rng E) :
  (0 < theta_step c)%Q -> (0 < r_step c)%Q -> (spiral_bound c <= fuel)%nat ->
  0 < width c -> 0 < height c ->
  (width c <= fst (box_px E c word (get_font c cex)) \/
   height c <= snd (box_px E c word (get_font c cex))) ->
  exists g', place_word E fuel c rgb_colors nc st (word, (nf, cex)) g = Ok (st, g').
Proof.
  intros Ht Hr Hfuel Hw Hh Hbig. unfold place_word.
  rewrite (bind_eq _ _ _ _ _ (box_size_ok c word _ g ltac:(lia) ltac:(lia))).
  set (wid := (inject_Z (fst (box_px E c word (get_font c cex))) / inject_Z (width c))%Q).
  set (ht := (inject_Z (snd (box_px E c word (get_font c cex))) / inject_Z (height c))%Q).
  assert (1 <= wid \/ 1 <= ht)%Q as Hone.
  { destruct Hbig; [left | right]; now apply div_ge_one. }
  rewrite (bind_eq _ _ _ _ _ (random_ok g)).
  eexists.
  destruct (Qltb _ (rot_per c)); cbn [fst snd];
    rewrite (bind_eq _ _ _ _ _ (uniform_ok _ _ _));
    apply spiral_oversize; try assumption; tauto.
Qed.

Lemma set_seed_ok (s : option Z) (g : rng E) :
  set_seed E s g = Ok (tt, match s with Some n => rand_seed E n | None => g end).
Proof. now destruct s. Qed.

(** A layout of one word whose box does not fit the canvas is empty. *)
Lemma wordcloud_single_oversize (fuel : nat) (frequencies : list (string * Q))
    (c : config) (g g2 : rng E) (word : string) (f : Q) (rgb_colors : list rgb) :
  (0 < theta_step c)%Q -> (0 < r_step c)%Q -> (spiral_bound c <= fuel)%nat ->
  0 < width c -> 0 < height c ->
  select_words c frequencies = [(word, f)] ->
  ~ (f == 0)%Q ->
  random_order c = false ->
  mapM (_hex_to_rgb E) (_get_palette_colors (palette c) 2)
       (match seed c with Some n => rand_seed E n | None => g end)
  = Ok (rgb_colors, g2) ->
  (width c <= fst (box_px E c word (get_font c (cex_value c (f / f)))) \/
   height c <= snd (box_px E c word (get_font c (cex_value c (f / f))))) ->
  exists g', wordcloud E fuel frequencies c g = Ok (([], []), g').
Proof.
  intros Ht Hr Hfuel Hw Hh Hsel Hf Hord Hrgb Hbig. unfold wordcloud.
  rewrite (bind_eq _ _ _ _ _ (set_seed_ok _ _)).
  rewrite (bind_eq _ _ _ _ _ Hrgb).
  rewrite Hsel. unfold placement_order. rewrite Hord.
  rewrite (bind_eq (ret _) _ g2 g2 _ eq_refl).
  cbn [map fst snd].
  assert (normalize E [f] g2 = Ok ([(f / f)%Q], g2)) as Hnorm.
  { unfold normalize, py_max. cbn [fold_left].
    rewrite (bind_eq (ret _) _ g2 g2 _ eq_refl). cbn [mapM].
    rewrite (bind_eq _ _ _ _ _ (truediv_nonzero _ _ _ Hf)). reflexivity. }
  rewrite (bind_eq _ _ _ _ _ Hnorm). cbn [map combine foldM].
  destruct (place_word_oversize fuel c rgb_colors
              (Z.of_nat (length (_get_palette_colors (palette c) 2)))
              ([], []) word (f / f)%Q (cex_value c (f / f)) g2
              Ht Hr Hfuel Hw Hh Hbig) as [g' Hplace].
  exists g'. now rewrite (bind_eq _ _ _ _ _ Hplace).
Qed.

End Run.



(** ** Degenerate inputs *)

Lemma fold_max_zero (l : list Q) (x : Q) :
  (x == 0)%Q -> Forall (fun f => (f == 0)%Q) l ->
  (fold_left (fun m y => if Qltb m y then y else m) l x == 0)%Q.
Proof.
  revert x. induction l as [|y l IH]; intros x Hx Hl; simpl; [exact Hx |].
  apply Forall_cons_iff in Hl as [Hy Hl].
  destruct (Qltb x y); now apply IH.
Qed.

Section Degenerate.

Variable E : Env.
Variables (fuel : nat) (frequencies : list (string * Q)) (c : config).
Variables (g g2 : rng E) (rgb_colors : list rgb).

Hypothesis colors_parse :
  mapM (_hex_to_rgb E) (_get_palette_colors (palette c) 2)
       (match seed c with Some n => rand_seed E n | None => g end)
  = Ok (rgb_colors, g2).

(** The run up to the loop over the words, without [random_order]. *)
Lemma wordcloud_unfold (wf : string * Q) (wfs : list (string * Q)) :
  select_words c frequencies = wf :: wfs ->
  random_order c = false ->
  wordcloud E fuel frequencies c g
  = bind (normalize E (map snd (wf :: wfs)))
         (fun normed_freq =>
            foldM (place_word E fuel c rgb_colors
                     (Z.of_nat (length (_get_palette_colors (palette c) 2))))
                  (combine (map fst (wf :: wfs))
                           (combine normed_freq (map (cex_value c) normed_freq)))
                  ([], [])) g2.
Proof.
  intros Hsel Hord. unfold wordcloud.
  rewrite (bind_eq _ _ _ _ _ (set_seed_ok E _ _)).
  rewrite (bind_eq _ _ _ _ _ colors_parse).
  rewrite Hsel. unfold placement_order. rewrite Hord.
  now rewrite (bind_eq (ret _) _ g2 g2 _ eq_refl).
Qed.

Lemma wordcloud_no_words :
  select_words c frequencies = [] ->
  wordcloud E fuel frequencies c g = Ok (([], []), g2).
Proof.
  intros Hsel. unfold wordcloud.
  rewrite (bind_eq _ _ _ _ _ (set_seed_ok E _ _)).
  rewrite (bind_eq _ _ _ _ _ colors_parse).
  now rewrite Hsel.
Qed.

Lemma wordcloud_zero_max (wf : string * Q) (wfs : list (string * Q)) :
  select_words c frequencies = wf :: wfs ->
  random_order c = false ->
  Forall (fun e => (snd e == 0)%Q) (wf :: wfs) ->
  wordcloud E fuel frequencies c g = Raise ZeroDivisionError.
Proof.
  intros Hsel Hord Hzero. rewrite (wordcloud_unfold wf wfs Hsel Hord).
  apply bind_raise. unfold normalize. cbn [map py_max].
  rewrite (bind_eq (ret _) _ g2 g2 _ eq_refl). cbn [mapM].
  apply bind_raise, truediv_zero.
  apply Forall_cons_iff in Hzero as [H0 Hrest].
  apply fold_max_zero; [exact H0 |].
  apply Forall_map. exact Hrest.
Qed.

Lemma wordcloud_zero_canvas (wf : string * Q) (wfs : list (string * Q))
    (normed_freq : list Q) (g3 : rng E) :
  select_words c frequencies = wf :: wfs ->
  random_order c = false ->
  normalize E (map snd (wf :: wfs)) g2 = Ok (normed_freq, g3) ->
  width c = 0 \/ height c = 0 ->
  wordcloud E fuel frequencies c g = Raise ZeroDivisionError.
Proof.
  intros Hsel Hord Hnorm Hzero. rewrite (wordcloud_unfold wf wfs Hsel Hord).
  rewrite (bind_eq _ _ _ _ _ Hnorm).
  apply normalize_spec in Hnorm as (m & _ & _ & _ & -> & _).
  destruct wf as [word f]. cbn [map combine foldM fst snd].
  apply bind_raise. unfold place_word.
  apply bind_raise. now apply box_size_zero_canvas.
Qed.

End Degenerate.

Lemma choose_color_empty_palette (E : Env) (c : config) (nf : Q) (g : rng E) :
  choose_color E c [] 0 nf g
  = Raise (if random_color c then ValueError else IndexError).
Proof.
  unfold choose_color. destruct (random_color c); [reflexivity |].
  cbv zeta. rewrite code_bucket_index.
  unfold bucket_index, clamp. reflexivity.
Qed.

(** C8, what the code does: when every word that survives the filter has
    frequency 0 (and [random_order] is off), [max_freq] is 0 and the
    normalization raises [ZeroDivisionError]. *)
Theorem wordcloud_zero_frequencies_raise (E : Env) (fuel : nat)
    (frequencies : list (string * Q)) (c : config) (g g2 : rng E)
    (rgb_colors : list rgb) (wf : string * Q) (wfs : list (string * Q)) :
  mapM (_hex_to_rgb E) (_get_palette_colors (palette c) 2)
       (match seed c with Some n => rand_seed E n | None => g end)
  = Ok (rgb_colors, g2) ->
  select_words c frequencies = wf :: wfs ->
  random_order c = false ->
  Forall (fun e => (snd e == 0)%Q) (wf :: wfs) ->
  wordcloud E fuel frequencies c g = Raise ZeroDivisionError.
Proof.
  intros. eapply wordcloud_zero_max; eassumption.
Qed.

(** The mapping [{"a": 0}] with [min_freq = 0]. *)
Lemma wordcloud_zero_frequencies_raise_witness :
  wordcloud Sample.env 1000 [("a", 0 # 1)%Q] Sample.zero_min_freq 0
  = Raise ZeroDivisionError.
Proof.
  eapply (wordcloud_zero_frequencies_raise Sample.env 1000 [("a", 0 # 1)%Q]
            Sample.zero_min_freq 0).
  - vm_compute. reflexivity.
  - reflexivity.
  - reflexivity.
  - repeat constructor.
Defined.




(** * Further properties of the layout *)

(** ** The overlap test as geometry *)

Lemma axis_overlap_point (a1 l1 a2 l2 : Q) :
  (0 < l1)%Q -> (0 < l2)%Q ->
  (axis_overlap a1 l1 a2 l2 <->
   exists p : Q, (a1 < p /\ p < a1 + l1 /\ a2 < p /\ p < a2 + l2)%Q).
Proof.
  intros H1 H2. unfold axis_overlap. split.
  - intros [Hlt Hge].
    destruct (Qlt_le_dec a1 a2) as [Hc | Hc].
    + specialize (Hlt Hc).
      destruct (Qlt_le_dec (a1 + l1) (a2 + l2)) as [Hd | Hd].
      * exists ((a2 + (a1 + l1)) / 2)%Q.
        repeat split; apply Qlt_shift_div_l || apply Qlt_shift_div_r; lra.
      * exists (a2 + l2 / 2)%Q.
        assert (0 < l2 / 2 /\ l2 / 2 < l2)%Q as [Ha Hb].
        { split; [apply Qlt_shift_div_l; lra | apply Qlt_shift_div_r; lra]. }
        repeat split; lra.
    + assert (~ a1 < a2)%Q as Hn by now apply Qle_not_lt.
      specialize (Hge Hn).
      destruct (Qlt_le_dec (a1 + l1) (a2 + l2)) as [Hd | Hd].
      * exists (a1 + l1 / 2)%Q.
        assert (0 < l1 / 2 /\ l1 / 2 < l1)%Q as [Ha Hb].
        { split; [apply Qlt_shift_div_l; lra | apply Qlt_shift_div_r; lra]. }
        repeat split; lra.
      * exists ((a1 + (a2 + l2)) / 2)%Q.
        repeat split; apply Qlt_shift_div_l || apply Qlt_shift_div_r; lra.
  - intros (p & Ha & Hb & Hc & Hd). split; intros _; lra.
Qed.

Lemma rect_overlap_interiors (b1 b2 : box) :
  positive_size b1 -> positive_size b2 ->
  (rect_overlap b1 b2 <-> interiors_meet b1 b2).
Proof.
  destruct b1 as [[[x1 y1] w1] h1], b2 as [[[x2 y2] w2] h2].
  intros [Hw1 Hh1] [Hw2 Hh2]. unfold rect_overlap, interiors_meet.
  rewrite (axis_overlap_point x1 w1 x2 w2 Hw1 Hw2).
  rewrite (axis_overlap_point y1 h1 y2 h2 Hh1 Hh2).
  split.
  - intros [(px & Hx) (py & Hy)]. exists px, py. tauto.
  - intros (px & py & H). split; [exists px | exists py]; tauto.
Qed.

(** For boxes of positive width and height, [_is_overlap] answers whether
    the interior of the candidate meets the interior of a box of the list. *)
Theorem is_overlap_interiors (x1 y1 w1 h1 : Q) (boxes : list box) :
  (0 < w1)%Q -> (0 < h1)%Q -> Forall positive_size boxes ->
  (_is_overlap x1 y1 w1 h1 boxes = true <->
   exists b, In b boxes /\ interiors_meet (x1, y1, w1, h1) b).
Proof.
  intros Hw Hh Hpos. rewrite is_overlap_exists.
  rewrite List.Forall_forall in Hpos.
  split; intros (b & Hin & Hb); exists b; (split; [exact Hin |]);
    apply (rect_overlap_interiors (x1, y1, w1, h1) b); auto; now split.
Qed.

(** A candidate across the corner of a recorded box. *)
Lemma is_overlap_interiors_witness :
  _is_overlap (1 # 4) (1 # 4) (1 # 2) (1 # 2) [(1 # 2, 1 # 2, 1 # 4, 1 # 4)]%Q = true <->
  exists b, In b [(1 # 2, 1 # 2, 1 # 4, 1 # 4)]%Q /\
            interiors_meet (1 # 4, 1 # 4, 1 # 2, 1 # 2)%Q b.
Proof.
  apply (is_overlap_interiors (1 # 4) (1 # 4) (1 # 2) (1 # 2)
           [(1 # 2, 1 # 2, 1 # 4, 1 # 4)]%Q).
  - reflexivity.
  - reflexivity.
  - repeat constructor.
Defined.

(** The answer of [_is_overlap] on a list is the disjunction of its answers
    on the parts of the list, and does not depend on the order in which the
    boxes were recorded. *)
Theorem is_overlap_order_free (x1 y1 w1 h1 : Q) :
  (forall l1 l2 : list box,
      _is_overlap x1 y1 w1 h1 (l1 ++ l2)
      = _is_overlap x1 y1 w1 h1 l1 || _is_overlap x1 y1 w1 h1 l2) /\
  (forall l1 l2 : list box,
      Permutation l1 l2 ->
      _is_overlap x1 y1 w1 h1 l1 = _is_overlap x1 y1 w1 h1 l2).
Proof.
  assert (forall l1 l2 : list box,
             _is_overlap x1 y1 w1 h1 (l1 ++ l2)
             = _is_overlap x1 y1 w1 h1 l1 || _is_overlap x1 y1 w1 h1 l2) as Happ.
  { intros l1 l2. induction l1 as [|[[[x2 y2] w2] h2] l1 IH]; [reflexivity |].
    cbn [app _is_overlap].
    match goal with |- context [if ?t then true else _] => destruct t end;
      [reflexivity | exact IH]. }
  split; [exact Happ |].
  assert (forall (b : box) (l : list box),
             _is_overlap x1 y1 w1 h1 (b :: l)
             = _is_overlap x1 y1 w1 h1 [b] || _is_overlap x1 y1 w1 h1 l) as Hcons.
  { intros b l. exact (Happ [b] l). }
  intros l1 l2 Hperm.
  induction Hperm as [| b l1 l2 _ IH | a b l | l1 l2 l3 _ IH1 _ IH2].
  - reflexivity.
  - rewrite (Hcons b l1), (Hcons b l2). now rewrite IH.
  - rewrite (Hcons b (a :: l)), (Hcons a l), (Hcons a (b :: l)), (Hcons b l).
    rewrite !orb_assoc. f_equal. apply orb_comm.
  - now rewrite IH1.
Qed.

(** ** The words that are kept *)

Lemma sorted_app_desc (l1 l2 : list (string * Q)) :
  StronglySorted desc (l1 ++ l2) ->
  forall a b, In a l1 -> In b l2 -> (snd b <= snd a)%Q.
Proof.
  induction l1 as [|x l1 IH]; intros Hs a b Ha Hb; [destruct Ha |].
  simpl in Hs. apply StronglySorted_inv in Hs as [Hs Hx].
  destruct Ha as [<- | Ha].
  - rewrite List.Forall_forall in Hx. apply Hx. apply in_or_app. now right.
  - now apply IH.
Qed.

(** With [max_words >= 0], the entries that reach [min_freq] split into the
    selected words and the rest, and no entry of the rest is more frequent
    than a selected word. *)
Theorem select_words_most_frequent (c : config) (frequencies : list (string * Q)) :
  0 <= max_words c ->
  exists rest,
    Permutation (List.filter (fun wf => Qle_bool (min_freq c) (snd wf)) frequencies)
                (select_words c frequencies ++ rest) /\
    (forall a b, In a (select_words c frequencies) -> In b rest ->
                 (snd b <= snd a)%Q).
Proof.
  intros Hk. unfold select_words, slice_to.
  replace (0 <=? max_words c) with true by (symmetry; now apply Z.leb_le).
  set (kept := List.filter _ frequencies).
  exists (skipn (Z.to_nat (max_words c)) (sort_desc kept)). split.
  - rewrite firstn_skipn. apply sort_desc_perm.
  - apply sorted_app_desc. rewrite firstn_skipn. apply sort_desc_sorted.
Qed.

(** Five entries, of which two are shown. *)
Lemma select_words_most_frequent_witness :
  let c := {| width := 800; height := 800; scale := (4 # 1, 1 # 2)%Q;
              min_freq := 2 # 1; max_words := 2; random_order := false;
              random_color := false; rot_per := 1 # 10;
              palette := PaletteName "Dark2"; background_color := "#FFFFFF";
              font_path := None; base_font_size := 16; theta_step := 1 # 10;
              r_step := 1 # 20; margin := 2; seed := None |} in
  let frequencies := [("a", 3 # 1); ("b", 1 # 1); ("c", 7 # 1); ("d", 5 # 1); ("e", 5 # 1)]%Q in
  select_words c frequencies = [("c", 7 # 1); ("d", 5 # 1)]%Q /\
  exists rest,
    Permutation (List.filter (fun wf => Qle_bool (min_freq c) (snd wf)) frequencies)
                (select_words c frequencies ++ rest) /\
    (forall a b, In a (select_words c frequencies) -> In b rest ->
                 (snd b <= snd a)%Q).
Proof.
  intros c frequencies. split; [reflexivity |].
  apply (select_words_most_frequent c frequencies). discriminate.
Defined.

(** ** Normalized frequencies and scale factors *)

Lemma fold_max_in (l : list Q) (x : Q) :
  In (fold_left (fun m y => if Qltb m y then y else m) l x) (x :: l).
Proof.
  revert x. induction l as [|y l IH]; intros x; cbn [fold_left]; [now left |].
  destruct (Qltb x y).
  - right. apply IH.
  - destruct (IH x) as [H | H]; [now left | right; now right].
Qed.



(** ** Palettes and colours *)

Lemma brewer_palettes_eight (name : string) (colors : list string) :
  BREWER_PALETTES !! name = Some colors -> length colors = 8%nat.
Proof.
  unfold BREWER_PALETTES. intros H.
  apply elem_of_list_to_map_2, list_elem_of_In in H.
  repeat (destruct H as [H | H]; [now inversion H |]). destruct H.
Qed.

(** A palette given by name, whether the name is known or not, has six to
    eight colours once the two lightest are skipped: only a list can give
    an empty palette. *)
Theorem named_palette_size (name : string) :
  (6 <= length (_get_palette_colors (PaletteName name) 2) <= 8)%nat.
Proof.
  unfold _get_palette_colors.
  destruct (BREWER_PALETTES !! name) as [colors |] eqn:Hname.
  - apply brewer_palettes_eight in Hname.
    destruct (bool_decide (name ∈ sequential) && (0 <? 2)).
    + unfold slice_from. cbn [Z.leb Z.compare Z.to_nat Pos.to_nat Pos.iter_op Nat.add].
      rewrite length_skipn. lia.
    + lia.
  - simpl. lia.
Qed.

Lemma lstrip_hash_app (hex extra : string) :
  lstrip_hash hex <> EmptyString ->
  lstrip_hash (hex ++ extra) = (lstrip_hash hex ++ extra)%string.
Proof.
  induction hex as [|ch hex IH]; simpl; [congruence |].
  destruct (Ascii.eqb ch "#"); [exact IH | reflexivity].
Qed.

Lemma substring_app (n m : nat) (h extra : string) :
  (n + m <= String.length h)%nat ->
  substring n m (h ++ extra) = substring n m h.
Proof.
  revert n m. induction h as [|ch h IH]; intros n m Hlen; cbn [String.length] in Hlen.
  - assert (n = 0%nat /\ m = 0%nat) as [-> ->] by lia. now destruct extra.
  - destruct n as [|n]; simpl.
    + destruct m as [|m]; [reflexivity |]. f_equal. apply (IH 0%nat m). lia.
    + apply IH. lia.
Qed.

Lemma substring_short (n m : nat) (h : string) :
  (String.length h <= n)%nat -> substring n m h = EmptyString.
Proof.
  revert n m. induction h as [|ch h IH]; intros n m Hlen.
  - destruct n, m; reflexivity.
  - cbn [String.length] in Hlen. destruct n as [|n]; [lia |].
    cbn [substring]. apply IH. lia.
Qed.

(** [_hex_to_rgb] reads the six characters that follow the leading hashes:
    with four characters or fewer it raises [ValueError] (the empty string
    is no number), and whatever follows the sixth character is ignored. *)
Theorem hex_to_rgb_six_digits (E : Env) :
  int16 E EmptyString = None ->
  (forall (hex_color : string) (g : rng E),
      (String.length (lstrip_hash hex_color) <= 4)%nat ->
      _hex_to_rgb E hex_color g = Raise ValueError) /\
  (forall (hex_color extra : string) (g : rng E),
      (6 <= String.length (lstrip_hash hex_color))%nat ->
      _hex_to_rgb E (hex_color ++ extra) g = _hex_to_rgb E hex_color g).
Proof.
  intros Hempty. split.
  - intros hex_color g Hlen. unfold _hex_to_rgb, bind, parse16.
    rewrite (substring_short 4 2 _ Hlen), Hempty.
    destruct (int16 E (substring 0 2 _)); [| reflexivity]. unfold ret at 1.
    destruct (int16 E (substring 2 2 _)); reflexivity.
  - intros hex_color extra g Hlen. unfold _hex_to_rgb.
    rewrite lstrip_hash_app by (intros H0; rewrite H0 in Hlen; simpl in Hlen; lia).
    now rewrite !substring_app by lia.
Qed.

(** A colour in the three-digit shorthand. *)
Lemma hex_to_rgb_six_digits_witness :
  _hex_to_rgb Sample.env "#FFF" 0 = Raise ValueError /\
  _hex_to_rgb Sample.env "#1B9E77FF" 0 = _hex_to_rgb Sample.env "#1B9E77" 0.
Proof.
  destruct (hex_to_rgb_six_digits Sample.env eq_refl) as [Hshort Hlong].
  split.
  - apply Hshort. simpl. lia.
  - apply (Hlong "#1B9E77" "FF"). simpl. lia.
Defined.

(** ** The seed *)



(** ** Truncation *)

Lemma py_int_floor (q : Q) : (0 <= q)%Q -> py_int q = Qfloor q.
Proof.
  destruct q as [n d]. unfold Qle, py_int. simpl. intros Hn.
  apply Z.quot_div_nonneg; lia.
Qed.

Lemma py_int_ceiling (q : Q) : (q <= 0)%Q -> py_int q = Qceiling q.
Proof.
  destruct q as [n d]. unfold Qle, py_int, Qceiling. simpl. intros Hn.
  rewrite <- (Z.opp_involutive n) at 1.
  rewrite Z.quot_opp_l by lia. f_equal.
  apply Z.quot_div_nonneg; lia.
Qed.

Lemma py_int_comp (x y : Q) : (x == y)%Q -> py_int x = py_int y.
Proof.
  intros Heq. destruct (Qlt_le_dec x 0) as [Hneg | Hpos].
  - rewrite !py_int_ceiling by lra. now apply Qceiling_comp.
  - rewrite !py_int_floor by lra. now apply Qfloor_comp.
Qed.

Lemma py_int_range (q : Q) (n : Z) :
  (0 <= q)%Q -> (q < inject_Z n)%Q -> 0 <= py_int q < n.
Proof.
  intros H0 Hn. rewrite py_int_floor by exact H0. split.
  - change 0 with (Qfloor (inject_Z 0)) at 1. rewrite Qfloor_Z.
    rewrite <- (Qfloor_Z 0). now apply Qfloor_resp_le.
  - pose proof (Qfloor_le q) as Hf.
    assert (inject_Z (Qfloor q) < inject_Z n)%Q as Hlt by lra.
    now rewrite <- Zlt_Qlt in Hlt.
Qed.

(** ** The search, candidate by candidate *)

Lemma getitem_in {S A} (l : list A) (i : Z) (a : A) (s s' : S) :
  getitem l i s = Ok (a, s') -> In a l.
Proof.
  unfold getitem, py_index.
  destruct ((0 <=? i) && (i <? Z.of_nat (length l))).
  - destruct (nth_error l (Z.to_nat i)) as [a' |] eqn:Hn; [| discriminate].
    intros H. apply ret_ok in H as [-> _]. eapply nth_error_In, Hn.
  - destruct ((i <? 0) && (- Z.of_nat (length l) <=? i)); [| discriminate].
    destruct (nth_error l (Z.to_nat (Z.of_nat (length l) + i))) as [a' |] eqn:Hn;
      [| discriminate].
    intros H. apply ret_ok in H as [-> _]. eapply nth_error_In, Hn.
Qed.

Lemma choose_color_in (E : Env) (c : config) (rgb_colors : list rgb) (nc : Z)
    (nf : Q) (g g' : rng E) (cc : rgb) :
  choose_color E c rgb_colors nc nf g = Ok (cc, g') -> In cc rgb_colors.
Proof.
  unfold choose_color. destruct (random_color c).
  - intros H. apply bind_ok in H as (k & g1 & _ & H). eapply getitem_in, H.
  - apply getitem_in.
Qed.

Section Candidates.

Variable E : Env.
Variables (c : config) (rgb_colors : list rgb) (nc : Z) (word : string)
          (ft : font) (nf wid ht : Q) (rot_word : bool) (st : layout).

Local Abbreviation search fuel r theta :=
  (spiral E fuel c rgb_colors nc word ft nf wid ht rot_word st r theta).

Local Abbreviation accept_at r theta :=
  (record_placement E c rgb_colors nc word ft nf rot_word st
     ((1 # 2) + r * cos E theta)%Q ((1 # 2) + r * sin E theta)%Q
     ((1 # 2) + r * cos E theta - (1 # 2) * wid)%Q
     ((1 # 2) + r * sin E theta - (1 # 2) * ht)%Q wid ht).

Local Abbreviation fits r theta := (candidate_fits E wid ht (fst st) r theta).

Local Abbreviation radius r k := (Nat.iter k (fun x => (x + r_incr c)%Q) r).
Local Abbreviation angle t k := (Nat.iter k (fun x => (x + theta_step c)%Q) t).

Lemma spiral_round (fuel : nat) (r theta : Q) :
  search (S fuel) r theta
  = if fits r theta then accept_at r theta
    else if Qltb sqrt_half r then ret st
         else search fuel (r + r_incr c)%Q (theta + theta_step c)%Q.
Proof. reflexivity. Qed.

Lemma radius_shift (r : Q) (k : nat) : radius (r + r_incr c)%Q k = radius r (S k).
Proof. symmetry. apply (Nat.iter_succ_r k (fun x => (x + r_incr c)%Q) r). Qed.

Lemma angle_shift (t : Q) (k : nat) : angle (t + theta_step c)%Q k = angle t (S k).
Proof. symmetry. apply (Nat.iter_succ_r k (fun x => (x + theta_step c)%Q) t). Qed.

Lemma spiral_first_fit_from (k : nat) :
  forall (fuel : nat) (r theta : Q),
    (k < fuel)%nat ->
    (forall j, (j < k)%nat ->
               fits (radius r j) (angle theta j) = false /\
               Qltb sqrt_half (radius r j) = false) ->
    search fuel r theta
    = if fits (radius r k) (angle theta k) then accept_at (radius r k) (angle theta k)
      else if Qltb sqrt_half (radius r k) then ret st
           else search (fuel - S k) (radius r (S k)) (angle theta (S k)).
Proof.
  induction k as [|k IH]; intros fuel r theta Hfuel Hbefore.
  - destruct fuel as [|fuel]; [lia |]. rewrite spiral_round.
    replace (S fuel - 1)%nat with fuel by lia. reflexivity.
  - destruct fuel as [|fuel]; [lia |]. rewrite spiral_round.
    destruct (Hbefore 0%nat ltac:(lia)) as [Hfit Hfar].
    change (Nat.iter 0 (fun x => (x + r_incr c)%Q) r) with r in Hfit, Hfar.
    change (Nat.iter 0 (fun x => (x + theta_step c)%Q) theta) with theta in Hfit.
    rewrite Hfit, Hfar.
    rewrite (IH fuel (r + r_incr c)%Q (theta + theta_step c)%Q ltac:(lia)).
    + replace (S fuel - S (S k))%nat with (fuel - S k)%nat by lia.
      now rewrite !radius_shift, !angle_shift.
    + intros j Hj. rewrite !radius_shift, !angle_shift. apply Hbefore. lia.
Qed.

(** What a search that returns has done to the layout: nothing, or one box
    and one placement more, the box being a candidate that passed the test. *)
Lemma spiral_result (fuel : nat) :
  forall (r theta : Q) (g g' : rng E) (st' : layout),
    search fuel r theta g = Ok (st', g') ->
    st' = st \/
    exists x1 y1 cc,
      in_bounds (x1 - (1 # 2) * wid)%Q (y1 - (1 # 2) * ht)%Q wid ht = true /\
      In cc rgb_colors /\
      st' = (fst st ++ [((x1 - (1 # 2) * wid)%Q, (y1 - (1 # 2) * ht)%Q, wid, ht)],
             snd st ++ [Placement word (py_int (x1 * inject_Z (width c)))
                                  (py_int (y1 * inject_Z (height c)))
                                  ft rot_word cc]).
Proof.
  induction fuel as [|fuel IH]; intros r theta g g' st' H; [discriminate |].
  rewrite spiral_round in H.
  destruct (fits r theta) eqn:Hfit.
  - right. unfold record_placement in H.
    apply bind_ok in H as (cc & g1 & Hcc & H). apply ret_ok in H as [-> _].
    unfold candidate_fits in Hfit. apply andb_true_iff in Hfit as [Hin _].
    apply choose_color_in in Hcc. eauto 6.
  - destruct (Qltb sqrt_half r).
    + apply ret_ok in H as [-> _]. now left.
    + eapply IH, H.
Qed.

End Candidates.

(** The search takes the first candidate of the spiral that fits, and gives
    up at the first refused candidate whose radius is beyond [sqrt(0.5)]:
    when the candidates of the rounds before [k] are refused within the
    cutoff, the candidate of round [k] decides. *)
Theorem spiral_first_fit (E : Env) (c : config) (rgb_colors : list rgb) (nc : Z)
    (word : string) (ft : font) (nf wid ht : Q) (rot_word : bool) (st : layout)
    (theta : Q) (g : rng E) (fuel k : nat) :
  (k < fuel)%nat ->
  (forall j, (j < k)%nat ->
             candidate_fits E wid ht (fst st) (radius_at c j) (angle_at c theta j) = false /\
             Qltb sqrt_half (radius_at c j) = false) ->
  let r := radius_at c k in
  let t := angle_at c theta k in
  (candidate_fits E wid ht (fst st) r t = true ->
   spiral E fuel c rgb_colors nc word ft nf wid ht rot_word st 0 theta g
   = record_placement E c rgb_colors nc word ft nf rot_word st
       ((1 # 2) + r * cos E t)%Q ((1 # 2) + r * sin E t)%Q
       ((1 # 2) + r * cos E t - (1 # 2) * wid)%Q
       ((1 # 2) + r * sin E t - (1 # 2) * ht)%Q wid ht g) /\
  (candidate_fits E wid ht (fst st) r t = false -> Qltb sqrt_half r = true ->
   spiral E fuel c rgb_colors nc word ft nf wid ht rot_word st 0 theta g
   = Ok (st, g)).
Proof.
  intros Hfuel Hbefore r t.
  pose proof (spiral_first_fit_from E c rgb_colors nc word ft nf wid ht rot_word st
                k fuel 0%Q theta Hfuel Hbefore) as Hk.
  fold (radius_at c k) in Hk. fold (angle_at c theta k) in Hk.
  fold r in Hk. fold t in Hk.
  split.
  - intros Hfit. now rewrite Hk, Hfit.
  - intros Hfit Hfar. now rewrite Hk, Hfit, Hfar.
Qed.

(** Round 0 is refused (the centre is taken), round 1 fits. *)
Lemma spiral_first_fit_witness :
  let st : layout := ([(91 # 200, 91 # 200, 9 # 100, 9 # 100)%Q], []) in
  let r := radius_at Sample.scenario 1 in
  let t := angle_at Sample.scenario 0 1 in
  spiral Sample.env 5 Sample.scenario [(27, 158, 119)] 1 "b" (Font None 32) 1
         (9 # 100) (9 # 100) false st 0 0 0
  = record_placement Sample.env Sample.scenario [(27, 158, 119)] 1 "b" (Font None 32) 1
      false st
      ((1 # 2) + r * cos Sample.env t)%Q ((1 # 2) + r * sin Sample.env t)%Q
      ((1 # 2) + r * cos Sample.env t - (1 # 2) * (9 # 100))%Q
      ((1 # 2) + r * sin Sample.env t - (1 # 2) * (9 # 100))%Q
      (9 # 100) (9 # 100) 0.
Proof.
  intros st r t.
  apply (spiral_first_fit Sample.env Sample.scenario [(27, 158, 119)] 1 "b"
           (Font None 32) 1 (9 # 100) (9 # 100) false st 0 0 5 1).
  - lia.
  - intros j Hj. assert (j = 0%nat) as -> by lia. split; vm_compute; reflexivity.
  - vm_compute. reflexivity.
Defined.

(** ** What a run records *)

Lemma box_size_inv (E : Env) (c : config) (word : string) (ft : font)
    (g g1 : rng E) (sz : Q * Q) :
  box_size E c word ft g = Ok (sz, g1) ->
  width c <> 0 /\ height c <> 0 /\
  sz = (inject_Z (fst (box_px E c word ft)) / inject_Z (width c),
        inject_Z (snd (box_px E c word ft)) / inject_Z (height c))%Q /\
  g1 = g.
Proof.
  intros H.
  assert (width c <> 0 /\ height c <> 0) as [Hw Hh].
  { split; intros H0; rewrite (box_size_zero_canvas E c word ft g) in H;
      try discriminate; [now left | now right]. }
  rewrite (box_size_ok E c word ft g Hw Hh) in H. inversion H; subst.
  now repeat split.
Qed.

Section Records.

Variable E : Env.
Variables (c : config) (rgb_colors : list rgb) (nc : Z) (fuel : nat).

Lemma place_word_result (st st' : layout) (word : string) (nf cex : Q) (g g' : rng E) :
  place_word E fuel c rgb_colors nc st (word, (nf, cex)) g = Ok (st', g') ->
  st' = st \/
  exists b p,
    recorded c rgb_colors b p /\
    p_word p = word /\ p_font p = get_font c cex /\
    (exists sz g1, box_size E c word (get_font c cex) g = Ok (sz, g1) /\
                   (snd (fst b) = fst sz /\ snd b = snd sz \/
                    snd (fst b) = snd sz /\ snd b = fst sz)) /\
    st' = (fst st ++ [b], snd st ++ [p]) /\
    sized E c b p.
Proof.
  unfold place_word. intros H.
  apply bind_ok in H as (sz & g1 & Hsz & H).
  apply bind_ok in H as (u & g2 & _ & H).
  destruct (if Qltb u (rot_per c) then (snd sz, fst sz) else sz) as [wid ht] eqn:Hrot.
  apply bind_ok in H as (theta & g3 & _ & H).
  apply spiral_result in H as [-> | (x1 & y1 & cc & Hin & Hcc & ->)]; [now left |].
  right.
  exists ((x1 - (1 # 2) * wid)%Q, (y1 - (1 # 2) * ht)%Q, wid, ht),
         (Placement word (py_int (x1 * inject_Z (width c)))
                    (py_int (y1 * inject_Z (height c))) (get_font c cex)
                    (Qltb u (rot_per c)) cc).
  split; [| split; [reflexivity | split; [reflexivity | split; [| split]]]];
    [| | reflexivity |].
  - unfold recorded. cbn [p_px p_py p_color].
    split; [now apply in_bounds_inside |].
    split; [| split; [| exact Hcc]]; apply py_int_comp; field.
  - exists sz, g1. split; [exact Hsz |]. cbn [fst snd].
    destruct (Qltb u (rot_per c)); inversion Hrot; subst; tauto.
  - apply box_size_inv in Hsz as (Hw & Hh & -> & _).
    unfold sized. cbn [p_word p_font p_rotated].
    split; [exact Hw | split; [exact Hh |]].
    destruct (Qltb u (rot_per c)); inversion Hrot; subst; now split.
Qed.

Lemma place_all_result (entries : list (string * (Q * Q))) :
  forall (st st' : layout) (g g' : rng E),
    foldM (place_word E fuel c rgb_colors nc) entries st g = Ok (st', g') ->
    exists bs ps,
      st' = (fst st ++ bs, snd st ++ ps) /\
      Forall2 (recorded c rgb_colors) bs ps /\
      sublist (map p_word ps) (map fst entries) /\
      Forall (fun b => exists word ft g0 sz g1,
                  1 <= font_size ft /\
                  box_size E c word ft g0 = Ok (sz, g1) /\
                  (snd (fst b) = fst sz /\ snd b = snd sz \/
                   snd (fst b) = snd sz /\ snd b = fst sz)) bs /\
      Forall2 (sized E c) bs ps /\
      Forall (fun p => exists e, In e entries /\ p_word p = fst e /\
                                 p_font p = get_font c (snd (snd e))) ps.
Proof.
  induction entries as [|[word [nf cex]] entries IH]; intros st st' g g' H; simpl in H.
  - apply ret_ok in H as [-> _]. exists [], [].
    rewrite !app_nil_r. destruct st. repeat split; constructor.
  - apply bind_ok in H as (st1 & g1 & H1 & H).
    apply IH in H as (bs & ps & -> & Hrec & Hsub & Hsz & Hsized & Hfont).
    assert (Forall (fun p => exists e, In e ((word, (nf, cex)) :: entries) /\
                                       p_word p = fst e /\
                                       p_font p = get_font c (snd (snd e))) ps) as Hfont'.
    { eapply List.Forall_impl; [| exact Hfont].
      intros p (e & He & Hp). exists e. split; [now right | exact Hp]. }
    apply place_word_result in H1
      as [-> | (b & p & Hbp & Hw & Hf & (sz & g2 & Hbox & Hdim) & -> & Hbs)].
    + exists bs, ps. repeat split; try assumption.
      cbn [map fst]. now apply sublist_cons.
    + exists (b :: bs), (p :: ps). cbn [fst snd].
      rewrite <- !app_assoc. cbn [app]. repeat split.
      * now constructor.
      * cbn [map fst]. rewrite Hw. now apply sublist_skip.
      * constructor; [| exact Hsz]. exists word, (get_font c cex), g, sz, g2.
        split; [unfold get_font; cbn [font_size]; lia | now split].
      * now constructor.
      * constructor; [| exact Hfont'].
        exists (word, (nf, cex)). split; [now left | now split].
Qed.

End Records.

Lemma combine_fst_sublist {A B} (l : list A) (l' : list B) :
  sublist (map fst (combine l l')) l.
Proof.
  revert l'. induction l as [|x l IH]; intros [|y l']; cbn [combine map fst].
  - constructor.
  - constructor.
  - apply sublist_nil_l.
  - now apply sublist_skip.
Qed.

Lemma combine_entries (c : config) (m : Q) (order : list (string * Q)) :
  combine (map fst order)
          (combine (map (fun f => (f / m)%Q) (map snd order))
                   (map (cex_value c) (map (fun f => (f / m)%Q) (map snd order))))
  = map (fun wf => (fst wf, ((snd wf / m)%Q, cex_value c (snd wf / m)))) order.
Proof.
  induction order as [|wf order IH]; cbn [map combine]; [reflexivity |].
  now rewrite IH.
Qed.

(** The run of [wordcloud] opened up to its loop: the parsed palette, the
    placement order and what the loop recorded. *)
Lemma wordcloud_result (E : Env) (fuel : nat) (frequencies : list (string * Q))
    (c : config) (g g' : rng E) (boxes : list box) (placed : list placement) :
  wordcloud E fuel frequencies c g = Ok ((boxes, placed), g') ->
  exists rgb_colors g2 order,
    mapM (_hex_to_rgb E) (_get_palette_colors (palette c) 2)
         (match seed c with Some n => rand_seed E n | None => g end)
    = Ok (rgb_colors, g2) /\
    (random_order c = false -> order = select_words c frequencies) /\
    (shuffle_permutes E -> Permutation (select_words c frequencies) order) /\
    Forall2 (recorded c rgb_colors) boxes placed /\
    sublist (map p_word placed) (map fst order) /\
    Forall (fun b => exists word ft g0 sz g1,
                1 <= font_size ft /\
                box_size E c word ft g0 = Ok (sz, g1) /\
                (snd (fst b) = fst sz /\ snd b = snd sz \/
                 snd (fst b) = snd sz /\ snd b = fst sz)) boxes /\
    Forall2 (sized E c) boxes placed /\
    (exists max_freq,
        (order <> [] -> In max_freq (map snd order)) /\
        Forall (fun wf => (snd wf <= max_freq)%Q) order /\
        Forall (fun p => exists f, In (p_word p, f) order /\
                                   p_font p = get_font c (cex_value c (f / max_freq)))
               placed).
Proof.
  unfold wordcloud. intros H.
  rewrite (bind_eq _ _ _ _ _ (set_seed_ok E _ _)) in H.
  apply bind_ok in H as (rgb_colors & g2 & Hrgb & H).
  exists rgb_colors, g2.
  destruct (select_words c frequencies) as [|wf wfs] eqn:Hsel.
  - apply ret_ok in H as [H _]. inversion H; subst. exists [].
    repeat split; try constructor; auto.
    exists 0%Q. repeat split; try constructor. congruence.
  - apply bind_ok in H as (order & g3 & Hord & H).
    apply bind_ok in H as (normed_freq & g4 & Hnorm & H).
    apply place_all_result in H as (bs & ps & Hst & Hrec & Hsub & Hsz & Hsized & Hfont).
    cbn [fst snd app] in Hst. inversion Hst; subst. exists order.
    assert (random_order c = false -> order = wf :: wfs) as Hsame.
    { intros Hno. unfold placement_order in Hord. rewrite Hno in Hord.
      apply ret_ok in Hord as [-> _]. reflexivity. }
    assert (shuffle_permutes E -> Permutation (wf :: wfs) order) as Hperm.
    { intros Hperm. unfold placement_order in Hord.
      destruct (random_order c).
      - unfold shuffle in Hord. inversion Hord.
        destruct (rand_shuffle E (wf :: wfs) g2) as [o gs] eqn:Hs.
        inversion H0; subst. specialize (Hperm (wf :: wfs) g2). now rewrite Hs in Hperm.
      - apply ret_ok in Hord as [-> _]. reflexivity. }
    assert (sublist (map p_word ps) (map fst order)) as Hwords.
    { etrans; [exact Hsub |]. apply combine_fst_sublist. }
    assert (exists max_freq,
               (order <> [] -> In max_freq (map snd order)) /\
               Forall (fun e => (snd e <= max_freq)%Q) order /\
               Forall (fun p => exists f, In (p_word p, f) order /\
                                 p_font p = get_font c (cex_value c (f / max_freq)))
                      ps) as Hfonts.
    { apply normalize_spec in Hnorm as (m & Hpm & Hup & _ & -> & _).
      exists m. split; [| split].
      - intros _. destruct (map snd order) as [|x l] eqn:Hl; [discriminate Hpm |].
        unfold py_max in Hpm. apply ret_ok in Hpm as [-> _]. apply fold_max_in.
      - rewrite List.Forall_forall in *. intros e He. apply Hup.
        now apply in_map.
      - eapply List.Forall_impl; [| exact Hfont].
        intros p (e & He & Hw & Hf).
        rewrite combine_entries in He. apply in_map_iff in He as ([w f] & <- & Hin).
        cbn [fst snd] in Hw, Hf. exists f. split; [now rewrite Hw | exact Hf]. }
    repeat (split; [assumption |]). exact Hfonts.
Qed.

Lemma sublist_In {A} (l k : list A) (x : A) : sublist l k -> In x l -> In x k.
Proof.
  induction 1 as [| y l k _ IH | y l k _ IH]; simpl; intros Hin.
  - exact Hin.
  - destruct Hin as [-> | Hin]; [now left | right; now apply IH].
  - right. now apply IH.
Qed.

Lemma sublist_ListNoDup {A} (l k : list A) : sublist l k -> List.NoDup k -> List.NoDup l.
Proof.
  induction 1 as [| y l k Hs IH | y l k _ IH]; intros Hk.
  - constructor.
  - apply List.NoDup_cons_iff in Hk as [Hy Hk]. constructor; [| now apply IH].
    intros Hin. apply Hy. eapply sublist_In; eassumption.
  - apply List.NoDup_cons_iff in Hk as [_ Hk]. now apply IH.
Qed.

Lemma firstn_sublist {A} (n : nat) (l : list A) : sublist (firstn n l) l.
Proof.
  revert n. induction l as [|x l IH]; intros [|n]; cbn [firstn].
  - constructor.
  - constructor.
  - apply sublist_nil_l.
  - now apply sublist_skip.
Qed.

Lemma filter_sublist {A} (f : A -> bool) (l : list A) : sublist (List.filter f l) l.
Proof.
  induction l as [|x l IH]; cbn [List.filter]; [constructor |].
  destruct (f x); [now apply sublist_skip | now apply sublist_cons].
Qed.

Lemma map_sublist {A B} (f : A -> B) (l k : list A) :
  sublist l k -> sublist (map f l) (map f k).
Proof.
  induction 1; cbn [map]; [constructor | now apply sublist_skip | now apply sublist_cons].
Qed.

Lemma select_words_sublist_sorted (c : config) (frequencies : list (string * Q)) :
  sublist (select_words c frequencies)
          (sort_desc (List.filter (fun wf => Qle_bool (min_freq c) (snd wf)) frequencies)).
Proof.
  unfold select_words, slice_to. destruct (0 <=? max_words c); apply firstn_sublist.
Qed.

Lemma select_words_in (c : config) (frequencies : list (string * Q)) (wf : string * Q) :
  In wf (select_words c frequencies) ->
  In wf frequencies /\ (min_freq c <= snd wf)%Q.
Proof.
  intros H. apply (sublist_In _ _ _ (select_words_sublist_sorted c frequencies)) in H.
  apply (Permutation_in _ (Permutation_sym (sort_desc_perm _))) in H.
  apply filter_In in H as [H1 H2]. split; [exact H1 | now apply Qle_bool_iff].
Qed.

Lemma select_words_nodup (c : config) (frequencies : list (string * Q)) :
  List.NoDup (map fst frequencies) -> List.NoDup (map fst (select_words c frequencies)).
Proof.
  intros Hnd.
  apply (sublist_ListNoDup _ _ (map_sublist fst _ _ (select_words_sublist_sorted c frequencies))).
  apply (Permutation_NoDup (Permutation_map fst (sort_desc_perm _))).
  eapply sublist_ListNoDup; [| exact Hnd]. apply map_sublist, filter_sublist.
Qed.

(** The words of the placements are words of the input that reach
    [min_freq]; they stand in the order of placement, each entry of the
    input at most once, so that words that are distinct in the input are
    distinct in the layout; and there are at most [max_words] placements. *)
Theorem placed_words_selected (E : Env) (fuel : nat) (frequencies : list (string * Q))
    (c : config) (g g' : rng E) (boxes : list box) (placed : list placement) :
  wordcloud E fuel frequencies c g = Ok ((boxes, placed), g') ->
  (random_order c = true -> shuffle_permutes E) ->
  (forall p, In p placed ->
             exists f, In (p_word p, f) frequencies /\ (min_freq c <= f)%Q) /\
  (List.NoDup (map fst frequencies) -> List.NoDup (map p_word placed)) /\
  (0 <= max_words c -> Z.of_nat (length placed) <= max_words c) /\
  (random_order c = false ->
   sublist (map p_word placed) (map fst (select_words c frequencies))).
Proof.
  intros Hrun Hshuffle.
  apply wordcloud_result in Hrun
    as (rgb_colors & g2 & order & _ & Hsame & Hperm & _ & Hsub & _).
  assert (Permutation (select_words c frequencies) order) as Hord.
  { destruct (random_order c) eqn:Hr; [now apply Hperm, Hshuffle |].
    now rewrite (Hsame eq_refl). }
  split; [| split; [| split]].
  - intros p Hp.
    apply (in_map p_word) in Hp. apply (sublist_In _ _ _ Hsub) in Hp.
    apply in_map_iff in Hp as ([w f] & Hw & Hin). cbn [fst] in Hw. subst w.
    apply (Permutation_in _ (Permutation_sym Hord)) in Hin.
    apply select_words_in in Hin. now exists f.
  - intros Hnd. apply (sublist_ListNoDup _ _ Hsub).
    apply (Permutation_NoDup (Permutation_map fst Hord)).
    now apply select_words_nodup.
  - intros Hk. apply sublist_length in Hsub. rewrite !length_map in Hsub.
    apply Permutation_length in Hord.
    assert (Z.of_nat (length (select_words c frequencies)) <= max_words c).
    { unfold select_words, slice_to.
      replace (0 <=? max_words c) with true by (symmetry; now apply Z.leb_le).
      match goal with |- context [firstn ?n ?l] =>
        pose proof (firstn_le_length n l) end. lia. }
    lia.
  - intros Hr. now rewrite <- (Hsame Hr).
Qed.

(** The scenario: three placements, the words in the order of their
    frequencies. *)
Lemma placed_words_selected_witness :
  exists boxes placed g',
    wordcloud Sample.env 20 Sample.scenario_words Sample.scenario 0
    = Ok ((boxes, placed), g') /\
    map p_word placed = ["a"; "b"; "bb"] /\
    (forall p, In p placed ->
               exists f, In (p_word p, f) Sample.scenario_words /\
                         (min_freq Sample.scenario <= f)%Q) /\
    (List.NoDup (map fst Sample.scenario_words) -> List.NoDup (map p_word placed)) /\
    (0 <= max_words Sample.scenario ->
     Z.of_nat (length placed) <= max_words Sample.scenario) /\
    (random_order Sample.scenario = false ->
     sublist (map p_word placed)
             (map fst (select_words Sample.scenario Sample.scenario_words))).
Proof.
  eexists _, _, _.
  split; [vm_compute; reflexivity |]. split; [reflexivity |].
  eapply (placed_words_selected Sample.env 20 Sample.scenario_words Sample.scenario 0).
  - vm_compute; reflexivity.
  - discriminate.
Defined.

Lemma Forall2_nth_error_both {A B} (P : A -> B -> Prop) (l : list A) (k : list B) :
  Forall2 P l k ->
  forall i x y, nth_error l i = Some x -> nth_error k i = Some y -> P x y.
Proof.
  induction 1 as [| a b l k Hab _ IH]; intros [|i] x y Hx Hy; try discriminate.
  - simpl in Hx, Hy. congruence.
  - simpl in Hx, Hy. eapply IH; eassumption.
Qed.

(** Placements and boxes are recorded together: there are as many of one as
    of the other, the pixel of the placement of rank [i] is the centre of the
    box of rank [i], scaled to the canvas and truncated, and its colour is a
    colour of the parsed palette. *)
Theorem placements_match_boxes (E : Env) (fuel : nat) (frequencies : list (string * Q))
    (c : config) (g g' : rng E) (boxes : list box) (placed : list placement) :
  wordcloud E fuel frequencies c g = Ok ((boxes, placed), g') ->
  length placed = length boxes /\
  (forall i bx by_ w h p,
      nth_error boxes i = Some (bx, by_, w, h) -> nth_error placed i = Some p ->
      p_px p = py_int ((bx + w / 2) * inject_Z (width c)) /\
      p_py p = py_int ((by_ + h / 2) * inject_Z (height c))) /\
  (exists rgb_colors g2,
      mapM (_hex_to_rgb E) (_get_palette_colors (palette c) 2)
           (match seed c with Some n => rand_seed E n | None => g end)
      = Ok (rgb_colors, g2) /\
      Forall (fun p => In (p_color p) rgb_colors) placed).
Proof.
  intros Hrun.
  apply wordcloud_result in Hrun
    as (rgb_colors & g2 & order & Hrgb & _ & _ & Hrec & _ & _).
  split; [symmetry; eapply Forall2_length, Hrec | split].
  - intros i bx by_ w h p Hb Hp.
    pose proof (Forall2_nth_error_both _ _ _ Hrec i _ _ Hb Hp) as H.
    unfold recorded in H. tauto.
  - exists rgb_colors, g2. split; [exact Hrgb |].
    clear Hrgb. induction Hrec as [| [[[bx by_] w] h] p bs ps Hbp _ IH]; constructor.
    + unfold recorded in Hbp. tauto.
    + exact IH.
Qed.

(** The scenario once more. *)
Lemma placements_match_boxes_witness :
  exists boxes placed g',
    wordcloud Sample.env 20 Sample.scenario_words Sample.scenario 0
    = Ok ((boxes, placed), g') /\
    length placed = 3%nat /\
    length placed = length boxes /\
    (forall i bx by_ w h p,
        nth_error boxes i = Some (bx, by_, w, h) -> nth_error placed i = Some p ->
        p_px p = py_int ((bx + w / 2) * inject_Z (width Sample.scenario)) /\
        p_py p = py_int ((by_ + h / 2) * inject_Z (height Sample.scenario))).
Proof.
  eexists _, _, _.
  split; [vm_compute; reflexivity |]. split; [reflexivity |].
  assert (wordcloud Sample.env 20 Sample.scenario_words Sample.scenario 0 = _) as Hrun
    by (vm_compute; reflexivity).
  destruct (placements_match_boxes Sample.env 20 Sample.scenario_words Sample.scenario
              0 _ _ _ Hrun) as (Hlen & Hcentre & _).
  exact (conj Hlen Hcentre).
Defined.

Lemma tails_height_nonneg (word : string) (th_px : Z) :
  0 <= th_px -> 0 <= tails_height word th_px.
Proof.
  intros H. unfold tails_height. destruct (_has_tails word); [| exact H].
  rewrite inflate_fifth. apply Z.quot_pos; lia.
Qed.

Lemma box_size_nonneg (E : Env) (c : config) (word : string) (ft : font)
    (g g1 : rng E) (sz : Q * Q) :
  bbox_ordered E -> 0 <= margin c -> 0 < width c -> 0 < height c ->
  1 <= font_size ft ->
  box_size E c word ft g = Ok (sz, g1) ->
  (0 <= fst sz /\ 0 <= snd sz)%Q.
Proof.
  intros Hbb Hm Hw Hh Hft Hsz.
  rewrite (box_size_ok E c word ft g) in Hsz by lia.
  inversion Hsz; subst. cbn [fst snd].
  assert (0 <= fst (box_px E c word ft) /\ 0 <= snd (box_px E c word ft)) as [Ht1 Ht2].
  { unfold box_px, _measure_text. specialize (Hbb word ft Hft).
    destruct (textbbox E word ft) as [[[b0 b1] b2] b3]. cbn [fst snd].
    split; [lia | apply tails_height_nonneg; lia]. }
  assert (forall a b : Z, 0 <= a -> 0 < b -> (0 <= inject_Z a / inject_Z b)%Q) as Hdiv.
  { intros a b Ha Hb. apply Qle_shift_div_l.
    - change 0%Q with (inject_Z 0). now rewrite <- Zlt_Qlt.
    - rewrite Qmult_0_l. change 0%Q with (inject_Z 0). now rewrite <- Zle_Qle. }
  split; now apply Hdiv.
Qed.

Lemma centre_pixel_range (b h : Q) (n : Z) :
  0 < n -> (0 < b)%Q -> (0 <= h)%Q -> (b + h < 1)%Q ->
  0 <= py_int ((b + h / 2) * inject_Z n) < n.
Proof.
  intros Hn Hb Hh Hbh.
  assert (0 < inject_Z n)%Q as Hnq.
  { change 0%Q with (inject_Z 0). now rewrite <- Zlt_Qlt. }
  assert (0 <= h / 2 /\ h / 2 <= h)%Q as [Ha Hc].
  { split; [apply Qle_shift_div_l; lra | apply Qle_shift_div_r; lra]. }
  apply py_int_range.
  - apply Qmult_le_0_compat; lra.
  - assert ((b + h / 2) * inject_Z n < 1 * inject_Z n)%Q as Hlt.
    { apply Qmult_lt_compat_r; [exact Hnq | lra]. }
    lra.
Qed.

(** On a canvas of positive width and height, with a margin that is not
    negative and text boxes that are not inverted, no recorded box has a
    negative width or height and the pixel of every placement is a pixel of
    the canvas. *)
Theorem placements_on_canvas (E : Env) (fuel : nat) (frequencies : list (string * Q))
    (c : config) (g g' : rng E) (boxes : list box) (placed : list placement) :
  wordcloud E fuel frequencies c g = Ok ((boxes, placed), g') ->
  bbox_ordered E -> 0 <= margin c -> 0 < width c -> 0 < height c ->
  Forall nonneg_size boxes /\
  Forall (fun p => 0 <= p_px p < width c /\ 0 <= p_py p < height c) placed.
Proof.
  intros Hrun Hbb Hm Hw Hh.
  apply wordcloud_result in Hrun
    as (rgb_colors & g2 & order & _ & _ & _ & Hrec & _ & Hsz & _).
  assert (Forall nonneg_size boxes) as Hnn.
  { eapply List.Forall_impl; [| exact Hsz].
    intros [[[bx by_] w] h] (word & ft & g0 & sz & g1 & Hft & Hbox & Hdim).
    cbn [fst snd] in Hdim.
    destruct (box_size_nonneg E c word ft g0 g1 sz Hbb Hm Hw Hh Hft Hbox) as [H1 H2].
    unfold nonneg_size. destruct Hdim as [[-> ->] | [-> ->]]; now split. }
  split; [exact Hnn |].
  clear Hsz. induction Hrec as [| [[[bx by_] w] h] p bs ps Hbp _ IH].
  - constructor.
  - apply Forall_cons_iff in Hnn as [[Hw0 Hh0] Hnn].
    constructor; [| now apply IH].
    destruct Hbp as ((Hx & Hy & Hxw & Hyh) & -> & -> & _).
    split; now apply centre_pixel_range.
Qed.

(** The scenario once more: the sample text boxes start at the origin. *)
Lemma placements_on_canvas_witness :
  exists boxes placed g',
    wordcloud Sample.env 20 Sample.scenario_words Sample.scenario 0
    = Ok ((boxes, placed), g') /\
    length placed = 3%nat /\
    Forall nonneg_size boxes /\
    Forall (fun p => 0 <= p_px p < width Sample.scenario /\
                     0 <= p_py p < height Sample.scenario) placed.
Proof.
  eexists _, _, _.
  split; [vm_compute; reflexivity |]. split; [reflexivity |].
  eapply (placements_on_canvas Sample.env 20 Sample.scenario_words Sample.scenario 0).
  - vm_compute; reflexivity.
  - intros word [file size] Hsize. cbn in *. lia.
  - cbn; lia.
  - reflexivity.
  - reflexivity.
Defined.

(** ** Runs that raise nothing *)

Section NoError.

Variable E : Env.

Lemma randint_ok (a b : Z) (g : rng E) :
  rng_in_range E -> a <= b ->
  exists k g', randint E a b g = Ok (k, g') /\ a <= k <= b.
Proof.
  intros Hrange Hab. unfold randint.
  replace (0 <? b + 1 - a) with true by (symmetry; apply Z.ltb_lt; lia).
  specialize (Hrange (b + 1 - a) g ltac:(lia)).
  destruct (rand_below E (b + 1 - a) g) as [k g']. cbn [fst] in Hrange.
  exists (a + k), g'. split; [reflexivity | lia].
Qed.

Lemma choose_color_ok (c : config) (rgb_colors : list rgb) (nf : Q) (g : rng E) :
  rgb_colors <> [] ->
  (random_color c = true -> rng_in_range E) ->
  exists cc g',
    choose_color E c rgb_colors (Z.of_nat (length rgb_colors)) nf g = Ok (cc, g').
Proof.
  intros Hne Hrange. set (N := Z.of_nat (length rgb_colors)).
  assert (1 <= N) as HN.
  { unfold N. destruct rgb_colors; [contradiction | simpl; lia]. }
  unfold choose_color. destruct (random_color c).
  - destruct (randint_ok 0 (N - 1) g (Hrange eq_refl) ltac:(lia)) as (k & g' & Hk & Hr).
    rewrite (bind_eq _ _ _ _ _ Hk).
    destruct (getitem_in_range rgb_colors k g' ltac:(fold N; lia)) as (cc & _ & Hcc).
    now exists cc, g'.
  - cbv zeta. rewrite code_bucket_index.
    pose proof (bucket_index_range N nf HN) as Hci.
    destruct (getitem_in_range rgb_colors (N - 1 - bucket_index N nf) g
                ltac:(fold N; lia)) as (cc & _ & Hcc).
    now exists cc, g.
Qed.

Lemma record_placement_ok (c : config) (rgb_colors : list rgb) (word : string)
    (ft : font) (nf : Q) (rot_word : bool) (st : layout) (x1 y1 bx by_ wid ht : Q)
    (g : rng E) :
  rgb_colors <> [] ->
  (random_color c = true -> rng_in_range E) ->
  exists cc g',
    record_placement E c rgb_colors (Z.of_nat (length rgb_colors)) word ft nf rot_word
                     st x1 y1 bx by_ wid ht g
    = Ok ((fst st ++ [(bx, by_, wid, ht)],
           snd st ++ [Placement word (py_int (x1 * inject_Z (width c)))
                                (py_int (y1 * inject_Z (height c))) ft rot_word cc]),
          g').
Proof.
  intros Hne Hrange.
  destruct (choose_color_ok c rgb_colors nf g Hne Hrange) as (cc & g' & Hcc).
  exists cc, g'. unfold record_placement. now rewrite (bind_eq _ _ _ _ _ Hcc).
Qed.

Lemma place_word_ok (fuel : nat) (c : config) (rgb_colors : list rgb) (st : layout)
    (entry : string * (Q * Q)) (g : rng E) :
  (0 < theta_step c)%Q -> (0 < r_step c)%Q -> (spiral_bound c <= fuel)%nat ->
  width c <> 0 -> height c <> 0 ->
  rgb_colors <> [] ->
  (random_color c = true -> rng_in_range E) ->
  exists st' g',
    place_word E fuel c rgb_colors (Z.of_nat (length rgb_colors)) st entry g
    = Ok (st', g').
Proof.
  intros Ht Hr Hfuel Hw Hh Hne Hrange. destruct entry as [word [nf cex]].
  unfold place_word.
  rewrite (bind_eq _ _ _ _ _ (box_size_ok E c word _ g Hw Hh)).
  rewrite (bind_eq _ _ _ _ _ (random_ok E g)).
  match goal with |- context [if ?b then ?x else ?y] =>
    destruct (if b then x else y) as [wid ht] end.
  rewrite (bind_eq _ _ _ _ _ (uniform_ok E _ _ _)).
  destruct fuel as [|k]; [unfold spiral_bound in Hfuel; lia |].
  match goal with |- context [spiral E (S k) c ?rgb ?nc ?w ?ft ?nf ?wid ?ht ?rot ?st ?r ?th ?g] =>
    destruct (spiral_cases E c rgb nc w ft nf wid ht rot st k r th g)
      as [H | (x1 & y1 & bx & by_ & _ & H)]
  end.
  - apply spiral_bound_reaches; [now apply r_incr_pos | exact Hfuel].
  - eauto.
  - rewrite H.
    match goal with |- context [record_placement E c _ _ ?w ?ft ?nf ?rot ?st _ _ _ _ ?wid ?ht ?g] =>
      destruct (record_placement_ok c rgb_colors w ft nf rot st x1 y1 bx by_ wid ht g
                  Hne Hrange) as (cc & g' & Hrec)
    end.
    eauto.
Qed.

Lemma foldM_ok {A St} (body : St -> A -> M (rng E) St) (l : list A) :
  (forall st x g, exists st' g', body st x g = Ok (st', g')) ->
  forall st g, exists st' g', foldM body l st g = Ok (st', g').
Proof.
  intros Hbody. induction l as [|x l IH]; intros st g; cbn [foldM].
  - now exists st, g.
  - destruct (Hbody st x g) as (st1 & g1 & H1).
    rewrite (bind_eq _ _ _ _ _ H1). apply IH.
Qed.

Lemma mapM_truediv_ok (m : Q) (l : list Q) (g : rng E) :
  ~ (m == 0)%Q ->
  mapM (fun f => truediv f m) l g = Ok (map (fun f => (f / m)%Q) l, g).
Proof.
  intros Hm. induction l as [|f l IH]; cbn [mapM map]; [reflexivity |].
  rewrite (bind_eq _ _ _ _ _ (truediv_nonzero _ _ _ Hm)).
  now rewrite (bind_eq _ _ _ _ _ IH).
Qed.

Lemma normalize_ok (freqs : list Q) (g : rng E) :
  freqs <> [] -> Forall (fun f => (0 < f)%Q) freqs ->
  exists nfs, normalize E freqs g = Ok (nfs, g).
Proof.
  intros Hne Hpos. destruct freqs as [|x l]; [contradiction |].
  unfold normalize, py_max. rewrite (bind_eq (ret _) _ g g _ eq_refl).
  eexists. apply mapM_truediv_ok.
  pose proof (fold_max_in l x) as Hin.
  rewrite List.Forall_forall in Hpos. specialize (Hpos _ Hin).
  intros H0. rewrite H0 in Hpos. now apply Qlt_irrefl in Hpos.
Qed.

(** A run in which every selected frequency is positive. *)
Lemma wordcloud_ok (fuel : nat) (frequencies : list (string * Q)) (c : config)
    (g g2 : rng E) (rgb_colors : list rgb) :
  (0 < theta_step c)%Q -> (0 < r_step c)%Q -> (spiral_bound c <= fuel)%nat ->
  width c <> 0 -> height c <> 0 ->
  mapM (_hex_to_rgb E) (_get_palette_colors (palette c) 2)
       (match seed c with Some n => rand_seed E n | None => g end)
  = Ok (rgb_colors, g2) ->
  _get_palette_colors (palette c) 2 <> [] ->
  (random_color c = true -> rng_in_range E) ->
  (random_order c = true -> shuffle_permutes E) ->
  (forall wf, In wf (select_words c frequencies) -> (0 < snd wf)%Q) ->
  exists st g', wordcloud E fuel frequencies c g = Ok (st, g').
Proof.
  intros Ht Hr Hfuel Hw Hh Hrgb Hcolors Hrange Hperm Hpos. unfold wordcloud.
  rewrite (bind_eq _ _ _ _ _ (set_seed_ok E _ _)).
  rewrite (bind_eq _ _ _ _ _ Hrgb).
  assert (rgb_colors <> []) as Hne.
  { apply mapM_length in Hrgb. intros ->.
    destruct (_get_palette_colors (palette c) 2); [contradiction | discriminate]. }
  assert (Z.of_nat (length (_get_palette_colors (palette c) 2))
          = Z.of_nat (length rgb_colors)) as ->.
  { apply mapM_length in Hrgb. now rewrite Hrgb. }
  destruct (select_words c frequencies) as [|wf wfs] eqn:Hsel; [now eexists _, _ |].
  assert (exists order g3,
             placement_order E c (wf :: wfs) g2 = Ok (order, g3) /\
             Permutation (wf :: wfs) order) as (order & g3 & Hord & Hp).
  { unfold placement_order. destruct (random_order c).
    - unfold shuffle. specialize (Hperm eq_refl (wf :: wfs) g2).
      destruct (rand_shuffle E (wf :: wfs) g2) as [o gs]. now exists o, gs.
    - now exists (wf :: wfs), g2. }
  rewrite (bind_eq _ _ _ _ _ Hord).
  destruct (normalize_ok (map snd order) g3) as (nfs & Hn).
  - intros H0. apply map_eq_nil in H0. subst order.
    now apply Permutation_sym, Permutation_nil in Hp.
  - apply Forall_map, List.Forall_forall. intros e He.
    apply Hpos. eapply Permutation_in; [apply Permutation_sym, Hp | exact He].
  - rewrite (bind_eq _ _ _ _ _ Hn). apply foldM_ok.
    intros st entry g0. now apply place_word_ok.
Qed.

End NoError.



(** ** The first word *)

Lemma half_pixel (n : Z) (z : Q) :
  (z == 1 # 2)%Q -> py_int (z * inject_Z n) = Z.quot n 2.
Proof.
  intros Hz. rewrite (py_int_comp _ ((1 # 2) * inject_Z n)) by now rewrite Hz.
  unfold py_int, Qmult, inject_Z. cbn [Qnum Qden]. now rewrite Z.mul_1_l.
Qed.

(** On an empty layout, a word whose box in pixels is smaller than the
    canvas is placed by the first round of its search, at the centre of the
    canvas, whatever the starting angle: its pixel is
    [(width / 2, height / 2)] and its box is centred on [(1/2, 1/2)]. *)
Theorem first_word_centred (E : Env) (fuel : nat) (c : config) (rgb_colors : list rgb)
    (word : string) (nf cex : Q) (g : rng E) :
  0 < width c -> 0 < height c ->
  fst (box_px E c word (get_font c cex)) < width c ->
  snd (box_px E c word (get_font c cex)) < height c ->
  rgb_colors <> [] ->
  (random_color c = true -> rng_in_range E) ->
  exists bx by_ w h p g',
    place_word E (S fuel) c rgb_colors (Z.of_nat (length rgb_colors)) ([], [])
               (word, (nf, cex)) g
    = Ok (([(bx, by_, w, h)], [p]), g') /\
    p_word p = word /\
    p_px p = Z.quot (width c) 2 /\ p_py p = Z.quot (height c) 2 /\
    (bx + w / 2 == 1 # 2)%Q /\ (by_ + h / 2 == 1 # 2)%Q.
Proof.
  intros Hw Hh Htw Hth Hne Hrange. unfold place_word.
  rewrite (bind_eq _ _ _ _ _ (box_size_ok E c word _ g ltac:(lia) ltac:(lia))).
  rewrite (bind_eq _ _ _ _ _ (random_ok E g)).
  set (wid0 := (inject_Z (fst (box_px E c word (get_font c cex))) / inject_Z (width c))%Q).
  set (ht0 := (inject_Z (snd (box_px E c word (get_font c cex))) / inject_Z (height c))%Q).
  assert (forall a b : Z, 0 < b -> a < b -> (inject_Z a / inject_Z b < 1)%Q) as Hdiv.
  { intros a b Hb Hab. apply Qlt_shift_div_r.
    - change 0%Q with (inject_Z 0). now rewrite <- Zlt_Qlt.
    - rewrite Qmult_1_l. now rewrite <- Zlt_Qlt. }
  assert (wid0 < 1 /\ ht0 < 1)%Q as [Hwid Hht] by (split; now apply Hdiv).
  set (rot := Qltb _ (rot_per c)).
  assert (exists wid ht, (if rot then (snd (wid0, ht0), fst (wid0, ht0)) else (wid0, ht0))
                         = (wid, ht) /\ (wid < 1 /\ ht < 1)%Q)
    as (wid & ht & -> & Hwid' & Hht').
  { destruct rot; cbn [fst snd]; eauto. }
  rewrite (bind_eq _ _ _ _ _ (uniform_ok E _ _ _)).
  set (theta := (0 + (2 * math_pi - 0) * _)%Q).
  rewrite spiral_round.
  assert (candidate_fits E wid ht (fst (([], []) : layout)) 0 theta = true) as ->.
  { unfold candidate_fits. cbn [fst _is_overlap negb]. rewrite andb_true_r.
    apply in_bounds_inside. unfold inside_unit_square. repeat split; lra. }
  match goal with |- context [record_placement E c _ _ ?w ?ft ?nf ?rt ?st ?x1 ?y1 ?bx ?by_ ?wd ?h ?gg] =>
    destruct (record_placement_ok E c rgb_colors w ft nf rt st x1 y1 bx by_ wd h gg
                Hne Hrange) as (cc & g' & Hrec)
  end.
  rewrite Hrec. cbn [fst snd app].
  eexists _, _, _, _, _, _. split; [reflexivity |].
  cbn [p_word p_px p_py].
  split; [reflexivity |].
  split; [apply half_pixel; ring |].
  split; [apply half_pixel; ring |].
  split; field.
Qed.

(** The first word of the scenario. *)
Lemma first_word_centred_witness :
  exists bx by_ w h p g',
    place_word Sample.env 1 Sample.scenario [(27, 158, 119)] 1 ([], [])
               ("a", (1 # 1, 2 # 1)%Q) 42
    = Ok (([(bx, by_, w, h)], [p]), g') /\
    p_word p = "a" /\
    p_px p = 200 /\ p_py p = 200 /\
    (bx + w / 2 == 1 # 2)%Q /\ (by_ + h / 2 == 1 # 2)%Q.
Proof.
  apply (first_word_centred Sample.env 0 Sample.scenario [(27, 158, 119)] "a"
           (1 # 1) (2 # 1) 42).
  - reflexivity.
  - reflexivity.
  - vm_compute. reflexivity.
  - vm_compute. reflexivity.
  - discriminate.
  - discriminate.
Defined.

(** * Word counts from a text *)

(** ** Tokens *)

Lemma lower_alpha_is_lowercase (c0 : ascii) :
  is_alpha (ascii_lower c0) = true ->
  (97 <= nat_of_ascii (ascii_lower c0) <= 122)%nat.
Proof.
  destruct c0 as [[] [] [] [] [] [] [] []]; vm_compute; intros H;
    first [discriminate H | split; lia].
Qed.

Lemma findall_alpha_tokens (s run : list ascii) (w : string) :
  In w (findall_alpha run s) ->
  w <> EmptyString /\
  (forall ch, In ch (list_ascii_of_string w) -> In ch (run ++ s)).
Proof.
  assert (forall (ch0 : ascii) (run0 : list ascii),
             string_of_list_ascii (rev (ch0 :: run0)) <> EmptyString) as Hne.
  { intros ch0 run0 H0. apply (f_equal list_ascii_of_string) in H0.
    rewrite list_ascii_of_string_of_list_ascii in H0. cbn [rev list_ascii_of_string] in H0.
    now apply app_eq_nil in H0 as [_ H0]. }
  assert (forall (run0 rest : list ascii) (ch : ascii),
             In ch (list_ascii_of_string (string_of_list_ascii (rev run0))) ->
             In ch (run0 ++ rest)) as Hrun.
  { intros run0 rest ch H0. rewrite list_ascii_of_string_of_list_ascii in H0.
    apply in_or_app. left. now apply in_rev. }
  revert run. induction s as [|c s IH]; intros run Hin; cbn [findall_alpha] in Hin.
  - destruct run as [|ch0 run]; [destruct Hin |].
    destruct Hin as [<- | []]. split; [apply Hne | apply Hrun].
  - destruct (is_alpha c).
    + apply IH in Hin as [H1 H2]. split; [exact H1 |].
      intros ch Hch. specialize (H2 ch Hch).
      apply in_app_or in H2 as [[<- | H2] | H2]; apply in_or_app;
        [right; now left | now left | right; now right].
    + assert (In w (findall_alpha [] s) ->
              w <> EmptyString /\
              (forall ch, In ch (list_ascii_of_string w) -> In ch (run ++ c :: s))) as Hrest.
      { intros H0. apply IH in H0 as [H1 H2]. split; [exact H1 |].
        intros ch Hch. apply in_or_app. right. right. exact (H2 ch Hch). }
      destruct run as [|ch0 run]; [now apply Hrest |].
      destruct Hin as [<- | Hin]; [| now apply Hrest].
      split; [apply Hne | apply Hrun].
Qed.

Lemma findall_alpha_letters (s run : list ascii) (w : string) :
  Forall (fun ch => is_alpha ch = true) run ->
  In w (findall_alpha run s) ->
  Forall (fun ch => is_alpha ch = true) (list_ascii_of_string w).
Proof.
  assert (forall run0 : list ascii,
             Forall (fun ch => is_alpha ch = true) run0 ->
             Forall (fun ch => is_alpha ch = true)
                    (list_ascii_of_string (string_of_list_ascii (rev run0)))) as Hrun.
  { intros run0 H0. rewrite list_ascii_of_string_of_list_ascii.
    apply List.Forall_forall. intros ch Hch. apply in_rev in Hch.
    rewrite List.Forall_forall in H0. now apply H0. }
  revert run. induction s as [|c s IH]; intros run Hall Hin; cbn [findall_alpha] in Hin.
  - destruct run as [|ch0 run]; [destruct Hin |].
    destruct Hin as [<- | []]. now apply Hrun.
  - destruct (is_alpha c) eqn:Hc.
    + apply (IH (c :: run)); [now constructor | exact Hin].
    + destruct run as [|ch0 run]; [now apply (IH []) |].
      destruct Hin as [<- | Hin]; [now apply Hrun | now apply (IH [])].
Qed.

Lemma findall_alpha_concat (s run : list ascii) :
  concat (map list_ascii_of_string (findall_alpha run s))
  = rev run ++ List.filter is_alpha s.
Proof.
  revert run. induction s as [|c s IH]; intros run; cbn [findall_alpha List.filter].
  - destruct run as [|ch0 run]; [reflexivity |].
    cbn [map concat]. now rewrite list_ascii_of_string_of_list_ascii, !app_nil_r.
  - destruct (is_alpha c).
    + rewrite IH. cbn [rev]. now rewrite <- app_assoc.
    + destruct run as [|ch0 run]; [now rewrite IH |].
      cbn [map concat]. now rewrite IH, list_ascii_of_string_of_list_ascii.
Qed.

Lemma tokens_of_text_words (text w : string) :
  In w (findall_alpha [] (lower text)) ->
  w <> EmptyString /\
  Forall (fun ch => (97 <= nat_of_ascii ch <= 122)%nat) (list_ascii_of_string w).
Proof.
  intros Hw.
  pose proof (findall_alpha_letters _ _ _ (List.Forall_nil _) Hw) as Halpha.
  apply findall_alpha_tokens in Hw as [Hne Hin]. split; [exact Hne |].
  rewrite List.Forall_forall in *. intros ch Hch.
  specialize (Halpha ch Hch). specialize (Hin ch Hch). cbn [app] in Hin.
  unfold lower in Hin. apply in_map_iff in Hin as (c0 & <- & _).
  now apply lower_alpha_is_lowercase.
Qed.

(** The tokens of a text are not empty and are made of the lowercase
    letters a to z only; put end to end they are the letters of the
    lowercased text, in their order: no letter is lost, none is added. *)
Theorem tokens_of_text (text : string) :
  (forall w, In w (findall_alpha [] (lower text)) ->
             w <> EmptyString /\
             Forall (fun ch => (97 <= nat_of_ascii ch <= 122)%nat)
                    (list_ascii_of_string w)) /\
  concat (map list_ascii_of_string (findall_alpha [] (lower text)))
  = List.filter is_alpha (lower text).
Proof.
  split; [| apply (findall_alpha_concat (lower text) [])].
  intros w Hw. now apply (tokens_of_text_words text).
Qed.

(** ** Counts *)

Lemma dict_get_set (freq : list (string * Z)) (w w' : string) (v d : Z) :
  dict_get (dict_set freq w v) w' d
  = if String.eqb w w' then v else dict_get freq w' d.
Proof.
  induction freq as [|[k x] freq IH]; cbn [dict_set dict_get].
  - reflexivity.
  - destruct (String.eqb k w) eqn:Hkw; cbn [dict_get].
    + apply String.eqb_eq in Hkw. subst k.
      destruct (String.eqb w w'); reflexivity.
    + rewrite IH. destruct (String.eqb w w') eqn:Hww; [| reflexivity].
      apply String.eqb_eq in Hww. subst w'. now rewrite Hkw.
Qed.

Lemma dict_set_keys (freq : list (string * Z)) (w : string) (v : Z) :
  (In w (map fst freq) -> map fst (dict_set freq w v) = map fst freq) /\
  (~ In w (map fst freq) -> map fst (dict_set freq w v) = map fst freq ++ [w]).
Proof.
  induction freq as [|[k x] freq [IH1 IH2]]; cbn [dict_set map fst].
  - split; [intros [] | reflexivity].
  - destruct (String.eqb k w) eqn:Hkw; cbn [map fst].
    + apply String.eqb_eq in Hkw. split; [reflexivity |].
      intros Hn. exfalso. apply Hn. now left.
    + apply String.eqb_neq in Hkw. split.
      * intros [Hk | Hin]; [contradiction | now rewrite IH1].
      * intros Hn. cbn [app]. rewrite IH2; [reflexivity |].
        intros Hin. apply Hn. now right.
Qed.

Lemma dict_get_in (freq : list (string * Z)) (w : string) (n d : Z) :
  List.NoDup (map fst freq) -> In (w, n) freq -> dict_get freq w d = n.
Proof.
  induction freq as [|[k x] freq IH]; cbn [map fst dict_get]; intros Hnd Hin;
    [destruct Hin |].
  apply List.NoDup_cons_iff in Hnd as [Hk Hnd].
  destruct Hin as [Heq | Hin].
  - inversion Heq; subst. now rewrite String.eqb_refl.
  - destruct (String.eqb k w) eqn:Hkw; [| now apply IH].
    apply String.eqb_eq in Hkw. subst k.
    exfalso. apply Hk. now apply (in_map fst _ (w, n)).
Qed.

Lemma NoDup_snoc {A} (l : list A) (x : A) :
  List.NoDup l -> ~ In x l -> List.NoDup (l ++ [x]).
Proof.
  induction l as [|y l IH]; cbn [app]; intros Hnd Hx.
  - repeat constructor. intros [].
  - apply List.NoDup_cons_iff in Hnd as [Hy Hnd]. constructor.
    + rewrite in_app_iff. intros [H | [<- | []]]; [contradiction |].
      apply Hx. now left.
    + apply IH; [exact Hnd |]. intros H. apply Hx. now right.
Qed.

Section Counting.

Local Abbreviation step :=
  (fun (freq : list (string * Z)) (w : string) => dict_set freq w (dict_get freq w 0 + 1)).

Lemma count_fold_get (l : list string) :
  forall (freq : list (string * Z)) (w : string),
    dict_get (fold_left step l freq) w 0
    = dict_get freq w 0 + Z.of_nat (count_occ string_dec l w).
Proof.
  induction l as [|x l IH]; intros freq w; cbn [fold_left count_occ]; [lia |].
  rewrite IH, dict_get_set.
  destruct (string_dec x w) as [-> | Hne].
  - rewrite String.eqb_refl. lia.
  - apply String.eqb_neq in Hne. rewrite Hne. lia.
Qed.

Lemma count_fold_keys (l : list string) :
  forall (freq : list (string * Z)),
    List.NoDup (map fst freq) ->
    List.NoDup (map fst (fold_left step l freq)) /\
    (forall k, In k (map fst (fold_left step l freq)) <-> In k (map fst freq) \/ In k l).
Proof.
  induction l as [|x l IH]; intros freq Hnd; cbn [fold_left].
  - split; [exact Hnd |]. intros k. cbn [In]. tauto.
  - destruct (dict_set_keys freq x (dict_get freq x 0 + 1)) as [Hin Hout].
    destruct (in_dec string_dec x (map fst freq)) as [Hx | Hx].
    + specialize (Hin Hx).
      destruct (IH (dict_set freq x (dict_get freq x 0 + 1))) as [H1 H2];
        [now rewrite Hin |].
      split; [exact H1 |]. intros k. rewrite H2, Hin.
      cbn [In]. split; [tauto |]. intros [H | [<- | H]]; tauto.
    + specialize (Hout Hx).
      destruct (IH (dict_set freq x (dict_get freq x 0 + 1))) as [H1 H2];
        [rewrite Hout; now apply NoDup_snoc |].
      split; [exact H1 |]. intros k. rewrite H2, Hout.
      rewrite in_app_iff. cbn [In]. tauto.
Qed.

End Counting.

Lemma dict_set_sum (freq : list (string * Z)) (w : string) :
  fold_right Z.add 0 (map snd (dict_set freq w (dict_get freq w 0 + 1)))
  = fold_right Z.add 0 (map snd freq) + 1.
Proof.
  induction freq as [|[k x] freq IH]; cbn [dict_set dict_get map snd fold_right].
  - lia.
  - destruct (String.eqb k w); cbn [map snd fold_right]; [lia |].
    rewrite IH. lia.
Qed.

Lemma count_words_snoc (l : list string) (x : string) :
  count_words (l ++ [x])
  = dict_set (count_words l) x (dict_get (count_words l) x 0 + 1).
Proof. unfold count_words. now rewrite fold_left_app. Qed.

Lemma count_words_entries (l : list string) :
  List.NoDup (map fst (count_words l)) /\
  (forall w n, In (w, n) (count_words l) <->
               In w l /\ n = Z.of_nat (count_occ string_dec l w)).
Proof.
  destruct (count_fold_keys l [] (List.NoDup_nil _)) as [Hnd Hkeys].
  fold (count_words l) in Hnd, Hkeys.
  split; [exact Hnd |].
  intros w n. split.
  - intros Hin. split.
    + apply (in_map fst) in Hin. apply Hkeys in Hin as [[] | Hin]. exact Hin.
    + rewrite <- (dict_get_in _ _ _ 0 Hnd Hin). unfold count_words.
      now rewrite count_fold_get.
  - intros [Hin ->].
    assert (In w (map fst (count_words l))) as Hk by (apply Hkeys; now right).
    apply in_map_iff in Hk as ([k n] & Hfst & Hk). cbn [fst] in Hfst. subst k.
    rewrite <- (dict_get_in _ _ _ 0 Hnd Hk) in Hk. unfold count_words in Hk at 1.
    now rewrite count_fold_get in Hk.
Qed.

Lemma count_words_positive (l : list string) (w : string) (n : Z) :
  In (w, n) (count_words l) -> 1 <= n.
Proof.
  intros Hin. apply count_words_entries in Hin as [Hin ->].
  apply (count_occ_In string_dec) in Hin. lia.
Qed.

(** The dict built from the counted words has one key for each distinct
    word, in the order in which the words first occur; the value of a key is
    the number of times the word occurs, so it is at least 1, and the values
    add up to the number of counted words. *)
Theorem count_words_counts (l : list string) :
  List.NoDup (map fst (count_words l)) /\
  map fst (count_words l) = rev (nodup string_dec (rev l)) /\
  (forall w n, In (w, n) (count_words l) <->
               In w l /\ n = Z.of_nat (count_occ string_dec l w)) /\
  (forall w n, In (w, n) (count_words l) -> 1 <= n) /\
  fold_right Z.add 0 (map snd (count_words l)) = Z.of_nat (length l).
Proof.
  destruct (count_words_entries l) as [Hnd Hiff].
  split; [exact Hnd | split; [| split; [exact Hiff | split]]].
  - clear Hnd Hiff. induction l as [|x l IH] using rev_ind; [reflexivity |].
    rewrite count_words_snoc, rev_app_distr. cbn [rev app nodup].
    destruct (dict_set_keys (count_words l) x (dict_get (count_words l) x 0 + 1))
      as [Hin Hout].
    destruct (count_fold_keys l [] (List.NoDup_nil _)) as [_ Hkeys].
    fold (count_words l) in Hkeys.
    destruct (in_dec string_dec x (rev l)) as [Hx | Hx].
    + rewrite Hin; [exact IH |]. apply Hkeys. right. now apply in_rev.
    + rewrite Hout; [cbn [rev]; now rewrite IH |].
      intros H. apply Hkeys in H as [[] | H]. apply Hx. now apply in_rev in H.
  - intros w n. apply count_words_positive.
  - clear Hnd Hiff. induction l as [|x l IH] using rev_ind; [reflexivity |].
    rewrite count_words_snoc, dict_set_sum, IH, length_app. cbn [length]. lia.
Qed.

Lemma text_frequencies_positive (text : string) (stopwords : option (gset string))
    (w : string) (f : Q) :
  In (w, f) (text_frequencies text stopwords) -> (1 <= f)%Q.
Proof.
  unfold text_frequencies. intros Hin.
  apply in_map_iff in Hin as ([w' n] & Heq & Hin). cbn [fst snd] in Heq.
  inversion Heq; subst. apply count_words_positive in Hin.
  change 1%Q with (inject_Z 1). now rewrite <- Zle_Qle.
Qed.

(** ** The mapping of a text *)

(** Every entry of the mapping built from a text is a word of two letters
    or more, in lowercase letters, that is no stopword, with a frequency
    that is its number of occurrences among the counted words, so a whole
    number from 1 on; and no word has two entries. *)
Theorem text_frequencies_entries (text : string) (stopwords : option (gset string)) :
  List.NoDup (map fst (text_frequencies text stopwords)) /\
  (forall w f,
      In (w, f) (text_frequencies text stopwords) ->
      (w ∉ match stopwords with Some s => s | None => default_stopwords end) /\
      (2 <= String.length w)%nat /\
      Forall (fun ch => (97 <= nat_of_ascii ch <= 122)%nat) (list_ascii_of_string w) /\
      f = inject_Z (Z.of_nat (count_occ string_dec (filter_words text stopwords) w)) /\
      (1 <= f)%Q).
Proof.
  unfold text_frequencies.
  destruct (count_words_entries (filter_words text stopwords)) as (Hnd & Hiff).
  pose proof (count_words_positive (filter_words text stopwords)) as Hone.
  split.
  - rewrite map_map. cbn [fst]. exact Hnd.
  - intros w f Hin. apply in_map_iff in Hin as ([w' n] & Heq & Hin).
    cbn [fst snd] in Heq. inversion Heq; subst. clear Heq.
    pose proof (Hone _ _ Hin) as Hn. apply Hiff in Hin as [Hin Hcount].
    unfold filter_words in Hin. apply filter_In in Hin as [Htok Htest].
    apply andb_true_iff in Htest as [Hstop Hlen].
    apply negb_true_iff, bool_decide_eq_false in Hstop.
    apply Nat.ltb_lt in Hlen.
    destruct (tokens_of_text_words text w Htok) as [_ Hlow].
    split; [exact Hstop | split; [lia | split; [exact Hlow | split]]].
    + now rewrite <- Hcount.
    + change 1%Q with (inject_Z 1). now rewrite <- Zle_Qle.
Qed.

(** ** Layouts of a text *)

Lemma select_words_nil (c : config) : select_words c [] = [].
Proof.
  unfold select_words, slice_to. cbn [List.filter sort_desc fold_right].
  destruct (0 <=? max_words c); apply firstn_nil.
Qed.



(** ** Boxes read off the placements *)

(** The size of the box of rank [i] can be computed again from the placement
    of rank [i]: it is the text box of the word in the font of the
    placement, with margin and descender compensation, divided by the size of
    the canvas, the width and the height being exchanged exactly when the
    placement is rotated. *)
Theorem boxes_from_placements (E : Env) (fuel : nat) (frequencies : list (string * Q))
    (c : config) (g g' : rng E) (boxes : list box) (placed : list placement) :
  wordcloud E fuel frequencies c g = Ok ((boxes, placed), g') ->
  forall i bx by_ w h p,
    nth_error boxes i = Some (bx, by_, w, h) -> nth_error placed i = Some p ->
    let wid := (inject_Z (fst (box_px E c (p_word p) (p_font p))) / inject_Z (width c))%Q in
    let ht := (inject_Z (snd (box_px E c (p_word p) (p_font p))) / inject_Z (height c))%Q in
    if p_rotated p then w = ht /\ h = wid else w = wid /\ h = ht.
Proof.
  intros Hrun i bx by_ w h p Hb Hp.
  apply wordcloud_result in Hrun
    as (rgb_colors & g2 & order & _ & _ & _ & _ & _ & _ & Hsized & _).
  pose proof (Forall2_nth_error_both _ _ _ Hsized i _ _ Hb Hp) as H.
  unfold sized in H. cbv zeta in *. tauto.
Qed.

(** The scenario: its first placement is rotated. *)
Lemma boxes_from_placements_witness :
  exists boxes placed g',
    wordcloud Sample.env 20 Sample.scenario_words Sample.scenario 0
    = Ok ((boxes, placed), g') /\
    map p_rotated placed = [true; false; false] /\
    forall i bx by_ w h p,
      nth_error boxes i = Some (bx, by_, w, h) -> nth_error placed i = Some p ->
      let wid := (inject_Z (fst (box_px Sample.env Sample.scenario (p_word p) (p_font p)))
                  / inject_Z (width Sample.scenario))%Q in
      let ht := (inject_Z (snd (box_px Sample.env Sample.scenario (p_word p) (p_font p)))
                 / inject_Z (height Sample.scenario))%Q in
      if p_rotated p then w = ht /\ h = wid else w = wid /\ h = ht.
Proof.
  eexists _, _, _.
  split; [vm_compute; reflexivity |]. split; [reflexivity |].
  eapply (boxes_from_placements Sample.env 20 Sample.scenario_words Sample.scenario 0).
  vm_compute; reflexivity.
Defined.

(** ** Fonts *)

(** The font of every placement is the font of its word's scale factor:
    with [max_freq] the largest frequency among the selected words, a
    placement of a word of frequency [f] has the font
    [get_font((scale[0] - scale[1]) * (f / max_freq) + scale[1])], of size
    at least 1. *)
Theorem placed_fonts (E : Env) (fuel : nat) (frequencies : list (string * Q))
    (c : config) (g g' : rng E) (boxes : list box) (placed : list placement) :
  wordcloud E fuel frequencies c g = Ok ((boxes, placed), g') ->
  (random_order c = true -> shuffle_permutes E) ->
  exists max_freq,
    (select_words c frequencies <> [] ->
     In max_freq (map snd (select_words c frequencies))) /\
    Forall (fun wf => (snd wf <= max_freq)%Q) (select_words c frequencies) /\
    Forall (fun p => exists f,
                In (p_word p, f) (select_words c frequencies) /\
                p_font p = get_font c (cex_value c (f / max_freq)) /\
                1 <= font_size (p_font p)) placed.
Proof.
  intros Hrun Hshuffle.
  apply wordcloud_result in Hrun
    as (rgb_colors & g2 & order & _ & Hsame & Hperm & _ & _ & _ & _ &
        max_freq & Hmax & Hup & Hfont).
  assert (Permutation (select_words c frequencies) order) as Hord.
  { destruct (random_order c) eqn:Hr; [now apply Hperm, Hshuffle |].
    now rewrite (Hsame eq_refl). }
  exists max_freq. split; [| split].
  - intros Hne.
    apply (Permutation_in _ (Permutation_sym (Permutation_map snd Hord))).
    apply Hmax. intros ->. apply Permutation_sym, Permutation_nil in Hord. contradiction.
  - now apply (Permutation_Forall (Permutation_sym Hord)).
  - eapply List.Forall_impl; [| exact Hfont].
    intros p (f & Hin & Hf). exists f. split; [| split; [exact Hf |]].
    + now apply (Permutation_in _ (Permutation_sym Hord)).
    + rewrite Hf. unfold get_font. cbn [font_size]. lia.
Qed.

(** The scenario: the fonts of sizes 32, 32 and 17. *)
Lemma placed_fonts_witness :
  exists boxes placed g' max_freq,
    wordcloud Sample.env 20 Sample.scenario_words Sample.scenario 0
    = Ok ((boxes, placed), g') /\
    map (fun p => font_size (p_font p)) placed = [32; 32; 17] /\
    Forall (fun p => exists f,
                In (p_word p, f) (select_words Sample.scenario Sample.scenario_words) /\
                p_font p = get_font Sample.scenario
                             (cex_value Sample.scenario (f / max_freq)) /\
                1 <= font_size (p_font p)) placed.
Proof.
  assert (wordcloud Sample.env 20 Sample.scenario_words Sample.scenario 0 = _) as Hrun
    by (vm_compute; reflexivity).
  destruct (placed_fonts Sample.env 20 Sample.scenario_words Sample.scenario 0 _ _ _ Hrun)
    as (max_freq & _ & _ & Hfont); [discriminate |].
  eexists _, _, _, max_freq.
  split; [exact Hrun |]. split; [reflexivity | exact Hfont].
Defined.
